(** * ovector: a fixed-capacity vector on guarded virtual memory

    A shallow embedding of [source/ovector.cpp] (the guarded allocator) and
    [include/mgrech/ovector.hpp] (the storage holder and the container),
    followed by the properties proved about them.

    Conventions of the embedding.
    - [size_type] is [decltype(sizeof 0)]: an unsigned 64-bit integer, a [Z]
      in [0, 2^64) whose arithmetic is reduced by [wrap].
    - A pointer is a byte address in [Z]; [0] is [nullptr].  Pointer
      arithmetic on [T*] scales by [sizeof(T)] and is not reduced: the
      language gives it no wrap-around meaning.
    - The operating system is an oracle ([kernel]) answering each system call
      from the history of events so far; every system call, constructor call
      and destructor call is appended to one chronological [log].
    - Containers are named objects in a store ([vars]), and member functions
      read and write their fields through the store, so that two references
      to one container alias as they do in the source.  A temporary is an
      object like any other, under a name not in use, until its destructor
      has run. *)

From Stdlib Require Import ZArith Lia Bool List String.
From stdpp Require Import base option list gmap.

Local Open Scope Z_scope.

(** ** Address-size arithmetic ([ovector.cpp], lines 43-56) *)

Definition size_bits : Z := 64.

(** [size_type] arithmetic is modulo [2^64]. *)
Definition wrap (z : Z) : Z := z mod 2 ^ size_bits.

(** [constexpr size_type PAGE_SIZE = 4096;] *)
Definition PAGE_SIZE : Z := 4096.

(** [constexpr size_type SIZE_TYPE_MAX = ~size_type();] *)
Definition SIZE_TYPE_MAX : Z := 2 ^ size_bits - 1.

(** The values a [size_type] can hold. *)
Definition in_size_type (z : Z) : Prop := 0 <= z <= SIZE_TYPE_MAX.

Definition in_size_typeb (z : Z) : bool := (0 <=? z) && (z <=? SIZE_TYPE_MAX).

(** [return (size / n + (size % n != 0)) * n;] *)
Definition ceil_multiple (size n : Z) : Z :=
  wrap (wrap (size / n + (if size mod n =? 0 then 0 else 1)) * n).

(** [return SIZE_TYPE_MAX - b < a;] *)
Definition add_overflows (a b : Z) : bool :=
  wrap (SIZE_TYPE_MAX - b) <? a.

Arguments wrap : simpl never.
Arguments ceil_multiple : simpl never.

(** ** Events and the operating system *)

(** The two back ends selected by [#ifdef OVECTOR_WINDOWS]. *)
Inductive platform : Type := Posix | Windows.

Inductive event : Type :=
| ev_mmap (len : Z)
    (* mmap(nullptr, len, PROT_READ | PROT_WRITE, MAP_PRIVATE | MAP_ANONYMOUS, -1, 0) *)
| ev_mmap_guard (addr len : Z)
    (* mmap(addr, len, PROT_NONE, MAP_FIXED | MAP_PRIVATE | MAP_ANONYMOUS, -1, 0) *)
| ev_munmap (addr len : Z)
    (* munmap(addr, len) *)
| ev_reserve (len : Z)
    (* VirtualAlloc(nullptr, len, MEM_RESERVE, PAGE_NOACCESS) *)
| ev_commit (addr len : Z)
    (* VirtualAlloc(addr, len, MEM_COMMIT, PAGE_READWRITE) *)
| ev_free (addr : Z)
    (* VirtualFree(addr, 0, MEM_RELEASE) *)
| ev_construct (addr : Z)
    (* new(addr) T(args...) completed *)
| ev_destroy (addr : Z).
    (* addr->~T() *)

(** What the operating system answers, given everything that happened so far.
    A granted mapping is named by its page number, so its base address
    [PAGE_SIZE * page] is page aligned and never null. *)
Record kernel : Type := {
  k_map : list event -> Z -> option positive;
  k_protect : list event -> Z -> Z -> bool;
  k_release : list event -> Z -> Z -> bool
}.

(** ** Storage holder fields ([ovector.hpp], lines 86-91) *)

Record ovector_storage : Type := {
  memory : Z;
  size : Z;
  max_size : Z
}.

Inductive field : Type := f_memory | f_size | f_max_size.

Definition get_field (f : field) (s : ovector_storage) : Z :=
  match f with
  | f_memory => memory s
  | f_size => size s
  | f_max_size => max_size s
  end.

Definition set_field (f : field) (v : Z) (s : ovector_storage) : ovector_storage :=
  match f with
  | f_memory => {| memory := v; size := size s; max_size := max_size s |}
  | f_size => {| memory := memory s; size := v; max_size := max_size s |}
  | f_max_size => {| memory := memory s; size := size s; max_size := v |}
  end.

(** The state of [ovector_storage()]: no reservation. *)
Definition unbacked : ovector_storage :=
  {| memory := 0; size := 0; max_size := 0 |}.

(** Why a call did not return normally. *)
Inductive abort : Type :=
| ctor_exception                 (* the element constructor threw *)
| fatal_error (message : string) (* fatal_error(): report and std::terminate *)
| no_such_object                 (* a name that denotes no live container *)
| no_object_at (addr : Z).       (* a read of storage that holds no element *)

(** ** Concrete instances used to run the model *)

(** A kernel that grants every reservation of at most 1 GiB at page 16 and
    never fails a follow-up call. *)
Definition granting_kernel : kernel :=
  {| k_map := fun _ len => if len <=? 2 ^ 30 then Some 16%positive else None;
     k_protect := fun _ _ _ => true;
     k_release := fun _ _ _ => true |}.

(** A kernel out of address space. *)
Definition refusing_kernel : kernel :=
  {| k_map := fun _ _ => None;
     k_protect := fun _ _ _ => true;
     k_release := fun _ _ _ => true |}.

(** The constructor of a four-byte element type built from an integer,
    which throws on negative arguments. *)
Definition int_construct (a : Z) : option Z :=
  if a <? 0 then None else Some a.

(** A kernel that grants the mapping and then refuses the second call of
    the reservation (the guard on POSIX, the commit on Windows). *)
Definition guard_refusing_kernel : kernel :=
  {| k_map := fun _ _ => Some 16%positive;
     k_protect := fun _ _ _ => false;
     k_release := fun _ _ _ => true |}.

Section Ovector.

(** The element type, its size, whether [std::is_trivially_destructible<T>]
    holds, the argument packs it can be constructed from ([None]: the
    constructor throws) and its [operator==]. *)
Context {T : Type}.
Variable sizeof_T : Z.
Variable trivially_destructible : bool.
Variable Args : Type.
Variable construct : Args -> option T.
Variable T_eq : T -> T -> bool.

(** The platform the library was built for, and its kernel. *)
Variable pf : platform.
Variable K : kernel.

Record machine : Type := {
  log : list event;
  objects : gmap Z T;
  vars : gmap nat ovector_storage
}.

Definition emit (e : event) (m : machine) : machine :=
  {| log := log m ++ [e]; objects := objects m; vars := vars m |}.

Definition with_objects (o : gmap Z T) (m : machine) : machine :=
  {| log := log m; objects := o; vars := vars m |}.

Definition with_vars (v : gmap nat ovector_storage) (m : machine) : machine :=
  {| log := log m; objects := objects m; vars := v |}.

Inductive outcome (R : Type) : Type :=
| Ret (r : R) (m : machine)
| Abort (why : abort) (m : machine).
Arguments Ret {R} r m.
Arguments Abort {R} why m.

Definition M (R : Type) : Type := machine -> outcome R.

Definition ret {R} (r : R) : M R := fun m => Ret r m.

Definition bind {R S} (c : M R) (k : R -> M S) : M S :=
  fun m => match c m with
           | Ret r m' => k r m'
           | Abort why m' => Abort why m'
           end.

Definition raise {R} (why : abort) : M R := fun m => Abort why m.

Notation "'let*' x ':=' c 'in' k" := (bind c (fun x => k))
  (at level 10, x name, c at level 100, k at level 200).
Notation "c '>>' k" := (bind c (fun _ => k))
  (at level 100, k at level 200, right associativity).

(** *** System calls *)

Definition sys_map (e : Z -> event) (len : Z) : M (option Z) :=
  fun m => Ret (option_map (fun page => PAGE_SIZE * Z.pos page) (k_map K (log m) len))
               (emit (e len) m).

Definition sys_protect (e : Z -> Z -> event) (addr len : Z) : M bool :=
  fun m => Ret (k_protect K (log m) addr len) (emit (e addr len) m).

Definition sys_release (e : event) (addr len : Z) : M bool :=
  fun m => Ret (k_release K (log m) addr len) (emit e m).

(** *** The platform layer ([ovector.cpp], lines 69-123) *)

Definition os_guarded_alloc (dataSize guardSize : Z) : M Z :=
  match pf with
  | Windows =>
      let* memory := sys_map ev_reserve (wrap (dataSize + guardSize)) in
      match memory with
      | None => ret 0
      | Some memory =>
          let* committed := sys_protect ev_commit memory dataSize in
          if negb committed then raise (fatal_error "failed to commit allocation")
          else ret memory
      end
  | Posix =>
      let* memory := sys_map ev_mmap (wrap (dataSize + guardSize)) in
      match memory with
      | None => ret 0
      | Some memory =>
          let* guarded := sys_protect ev_mmap_guard (memory + dataSize) guardSize in
          if negb guarded then raise (fatal_error "failed to enable guard page")
          else ret memory
      end
  end.

Definition os_dealloc (memory size : Z) : M unit :=
  match pf with
  | Windows =>
      let* freed := sys_release (ev_free memory) memory 0 in
      if negb freed then raise (fatal_error "failed to release memory")
      else ret tt
  | Posix =>
      let* unmapped := sys_release (ev_munmap memory size) memory size in
      if negb unmapped then raise (fatal_error "failed to unmap memory")
      else ret tt
  end.

(** *** The guarded allocator ([ovector.cpp], lines 127-158) *)

Definition guarded_alloc (requestedDataSize requestedGuardSize : Z) : M Z :=
  if requestedDataSize =? 0 then ret 0
  else if (wrap (wrap (SIZE_TYPE_MAX - PAGE_SIZE) + 1) <? requestedDataSize)
          || (wrap (wrap (SIZE_TYPE_MAX - PAGE_SIZE) + 1) <? requestedGuardSize)
  then ret 0
  else
    let allocatedDataSize := ceil_multiple requestedDataSize PAGE_SIZE in
    let allocatedGuardSize := ceil_multiple requestedGuardSize PAGE_SIZE in
    if add_overflows allocatedDataSize allocatedGuardSize then ret 0
    else
      let* memory := os_guarded_alloc allocatedDataSize allocatedGuardSize in
      if memory =? 0 then ret 0
      else
        let wastedSpace := wrap (allocatedDataSize - requestedDataSize) in
        ret (memory + wastedSpace).

Definition guarded_dealloc (memory requestedDataSize requestedGuardSize : Z) : M unit :=
  let allocatedDataSize := ceil_multiple requestedDataSize PAGE_SIZE in
  let allocatedGuardSize := ceil_multiple requestedGuardSize PAGE_SIZE in
  let wastedSpace := wrap (allocatedDataSize - requestedDataSize) in
  let allocatedMemory := memory - wastedSpace in
  os_dealloc allocatedMemory (wrap (allocatedDataSize + allocatedGuardSize)).

(** *** Named containers and references to their fields *)

Definition load (v : nat) (f : field) : M Z :=
  fun m => match vars m !! v with
           | Some s => Ret (get_field f s) m
           | None => Abort no_such_object m
           end.

Definition store (v : nat) (f : field) (x : Z) : M unit :=
  fun m => match vars m !! v with
           | Some s => Ret tt (with_vars (<[v := set_field f x s]> (vars m)) m)
           | None => Abort no_such_object m
           end.

(** A container comes into existence under the name [v]. *)
Definition declare (v : nat) (s : ovector_storage) : M unit :=
  fun m => Ret tt (with_vars (<[v := s]> (vars m)) m).

(** The lifetime of the container named [v] ends. *)
Definition undeclare (v : nat) : M unit :=
  fun m => Ret tt (with_vars (delete v (vars m)) m).

(** [T tmp = inlined_move(ref); ref = inlined_forward<U>(value); return tmp;] *)
Definition inlined_exchange (ref : nat * field) (value : Z) : M Z :=
  let* tmp := load ref.1 ref.2 in
  store ref.1 ref.2 value >>
  ret tmp.

(** [T tmp = inlined_move(lhs); lhs = inlined_move(rhs); rhs = inlined_move(tmp);] *)
Definition inlined_swap (lhs rhs : nat * field) : M unit :=
  let* tmp := load lhs.1 lhs.2 in
  let* r := load rhs.1 rhs.2 in
  store lhs.1 lhs.2 r >>
  store rhs.1 rhs.2 tmp.

(** *** Element lifetime *)

(** [new(base) T(args...)]: nothing is written when the constructor throws. *)
Definition placement_new (base : Z) (args : Args) : M Z :=
  fun m => match construct args with
           | None => Abort ctor_exception m
           | Some x => Ret base (emit (ev_construct base)
                                      (with_objects (<[base := x]> (objects m)) m))
           end.

(** [p->~T()] *)
Definition destroy (p : Z) : M unit :=
  fun m => Ret tt (emit (ev_destroy p) (with_objects (delete p (objects m)) m)).

(** [*p] read as a value. *)
Definition deref (p : Z) : M T :=
  fun m => match objects m !! p with
           | Some x => Ret x m
           | None => Abort (no_object_at p) m
           end.

(** *** [ovector_storage<T>] ([ovector.hpp], lines 86-137) *)

(** [ovector_storage() : memory(nullptr), size(0), max_size(0)] *)
Definition storage_default (this : nat) : M unit :=
  declare this {| memory := 0; size := 0; max_size := 0 |}.

(** [ovector_storage(size_type max_size)
      : memory(guarded_alloc(max_size * sizeof(T), sizeof(T))),
        size(0), max_size(memory ? max_size : 0)] *)
Definition storage_sized (this : nat) (max_size : Z) : M unit :=
  let* memory := guarded_alloc (wrap (max_size * sizeof_T)) sizeof_T in
  declare this {| memory := memory;
                  size := 0;
                  max_size := if memory =? 0 then 0 else max_size |}.

(** [ovector_storage(ovector_storage&& other)] *)
Definition storage_move (this other : nat) : M unit :=
  let* memory := inlined_exchange (other, f_memory) 0 in
  let* size := inlined_exchange (other, f_size) 0 in
  let* max_size := inlined_exchange (other, f_max_size) 0 in
  declare this {| memory := memory; size := size; max_size := max_size |}.

(** [if(memory) guarded_dealloc(memory, max_size * sizeof(T), sizeof(T));] *)
Definition deallocate (this : nat) : M unit :=
  let* memory := load this f_memory in
  if memory =? 0 then ret tt
  else
    let* max_size := load this f_max_size in
    guarded_dealloc memory (wrap (max_size * sizeof_T)) sizeof_T.

(** [ovector_storage& operator=(ovector_storage&& other)] *)
Definition storage_move_assign (this other : nat) : M unit :=
  deallocate this >>
  (let* memory := inlined_exchange (other, f_memory) 0 in
   store this f_memory memory) >>
  (let* size := inlined_exchange (other, f_size) 0 in
   store this f_size size) >>
  (let* max_size := inlined_exchange (other, f_max_size) 0 in
   store this f_max_size max_size).

(** [~ovector_storage()] *)
Definition storage_destroy (this : nat) : M unit :=
  deallocate this >>
  undeclare this.

(** *** [ovector<T>] ([ovector.hpp], lines 157-529) *)

(** [_storage.size = 0;] *)
Definition clear_impl_true (this : nat) : M unit :=
  store this f_size 0.

(** [for(size_type i = 0; i != s; ++i) p[i].~T();]
    The loop runs [s] times; [n] counts the iterations left. *)
Fixpoint destroy_loop (n : nat) (p i : Z) : M unit :=
  match n with
  | O => ret tt
  | S n' => destroy (p + i * sizeof_T) >> destroy_loop n' p (wrap (i + 1))
  end.

Definition clear_impl_false (this : nat) : M unit :=
  let* p := load this f_memory in
  if p =? 0 then ret tt
  else
    let* s := load this f_size in
    destroy_loop (Z.to_nat s) p 0 >>
    store this f_size 0.

(** [clear_impl(std::integral_constant<bool, std::is_trivially_destructible<T>::value>());] *)
Definition clear (this : nat) : M unit :=
  if trivially_destructible then clear_impl_true this
  else clear_impl_false this.

(** [ovector() noexcept = default;] *)
Definition ovector_default (this : nat) : M unit :=
  storage_default this.

(** [explicit ovector(size_type max_size) : _storage(max_size)] *)
Definition ovector_sized (this : nat) (max_size : Z) : M unit :=
  storage_sized this max_size.

(** [ovector(ovector&&) noexcept = default;] *)
Definition ovector_move (this other : nat) : M unit :=
  storage_move this other.

(** [detail::inlined_move] ([ovector.hpp], lines 37-42) on a storage holder:
      [template <typename T>
       auto inlined_move(T& value) noexcept { return static_cast<T&&>(value); }]
    The return type is the placeholder [auto], which never deduces a
    reference: the call returns a new [ovector_storage], move-constructed
    from [value].  That temporary is an object of its own; it lives under a
    name no live object has, and the call returns that name. *)
Definition inlined_move (value : nat) : M nat :=
  fun m =>
    let temporary := fresh (dom (vars m)) in
    (storage_move temporary value >> ret temporary) m.

(** [clear(); _storage = detail::inlined_move(other._storage); return *this;]
    The right-hand side of the assignment is the temporary made by
    [inlined_move]; it is destroyed at the end of the statement. *)
Definition ovector_move_assign (this other : nat) : M unit :=
  clear this >>
  let* temporary := inlined_move other in
  storage_move_assign this temporary >>
  storage_destroy temporary.

(** [static ovector with_max_size_or_null(size_type max_size)]: the
    returned container is the one named [result]. *)
Definition with_max_size_or_null (result : nat) (max_size : Z) : M unit :=
  ovector_sized result max_size.

(** [~ovector() { clear(); }], then the member [_storage] is destroyed. *)
Definition ovector_destroy (this : nat) : M unit :=
  clear this >>
  storage_destroy this.

Definition data (this : nat) : M Z := load this f_memory.

Definition get_size (this : nat) : M Z := load this f_size.

Definition get_max_size (this : nat) : M Z := load this f_max_size.

(** [explicit operator bool() { return data() != nullptr; }] *)
Definition to_bool (this : nat) : M bool :=
  let* p := data this in ret (negb (p =? 0)).

(** [return size() == 0;] *)
Definition empty (this : nat) : M bool :=
  let* s := get_size this in ret (s =? 0).

(** [return data();] *)
Definition begin_ (this : nat) : M Z := data this.

(** [return data() + size();] *)
Definition end_ (this : nat) : M Z :=
  let* p := data this in
  let* s := get_size this in
  ret (p + s * sizeof_T).

(** [return _storage.memory[_storage.size - 1];], as an address. *)
Definition back (this : nat) : M Z :=
  let* p := load this f_memory in
  let* s := load this f_size in
  ret (p + wrap (s - 1) * sizeof_T).

(** [_storage.size += n;] *)
Definition uninitialized_grow_back_by (this : nat) (n : Z) : M unit :=
  let* s := load this f_size in
  store this f_size (wrap (s + n)).

(** [_storage.size -= n; return _storage.memory + _storage.size;]
    The source requires [size() >= n]; the subtraction wraps as written
    when that does not hold.  The returned address is the sum of the
    conventions above, which is the pointer the code returns whenever the
    new size is an index into the container, as it is under the
    precondition. *)
Definition uninitialized_shrink_back_by (this : nat) (n : Z) : M Z :=
  let* s := load this f_size in
  store this f_size (wrap (s - n)) >>
  let* p := load this f_memory in
  let* s' := load this f_size in
  ret (p + s' * sizeof_T).

(** [auto base = _storage.memory + _storage.size;
     auto p = new(base) T(detail::inlined_forward<Args>(args)...);
     uninitialized_grow_back_by(1);
     return p;] *)
Definition emplace_back (this : nat) (args : Args) : M Z :=
  let* memory := load this f_memory in
  let* size := load this f_size in
  let base := memory + size * sizeof_T in
  let* p := placement_new base args in
  uninitialized_grow_back_by this 1 >>
  ret p.

(** [uninitialized_shrink_back_by(1)->~T();] *)
Definition pop_back (this : nat) : M unit :=
  let* p := uninitialized_shrink_back_by this 1 in
  destroy p.

(** [detail::inlined_swap] on the three fields in turn. *)
Definition swap (this other : nat) : M unit :=
  inlined_swap (this, f_memory) (other, f_memory) >>
  inlined_swap (this, f_size) (other, f_size) >>
  inlined_swap (this, f_max_size) (other, f_max_size).

(** [std::equal(first1, last1, first2)] of the C++ standard library:
    [for (; first1 != last1; ++first1, ++first2)
       if (!( *first1 == *first2 )) return false;
     return true;]
    with the range [[first1, last1)] given by its number [n] of elements. *)
Fixpoint std_equal (n : nat) (first1 first2 : Z) : M bool :=
  match n with
  | O => ret true
  | S n' =>
      let* x := deref first1 in
      let* y := deref first2 in
      if negb (T_eq x y) then ret false
      else std_equal n' (first1 + sizeof_T) (first2 + sizeof_T)
  end.

(** [return lhs.size() == rhs.size()
            && std::equal(lhs.cbegin(), lhs.cend(), rhs.cbegin());] *)
Definition operator_eq (lhs rhs : nat) : M bool :=
  let* ls := get_size lhs in
  let* rs := get_size rhs in
  if negb (ls =? rs) then ret false
  else
    let* first1 := begin_ lhs in
    let* first2 := begin_ rhs in
    std_equal (Z.to_nat ls) first1 first2.

(** [return !(lhs == rhs);] *)
Definition operator_ne (lhs rhs : nat) : M bool :=
  let* e := operator_eq lhs rhs in ret (negb e).

(** *** Programs over named containers *)

(** One call of the public interface. *)
Inductive operation : Type :=
| op_default (v : nat)                        (* ovector<T> v; *)
| op_with_max_size_or_null (v : nat) (n : Z)  (* auto v = ovector<T>::with_max_size_or_null(n); *)
| op_move (v other : nat)                     (* ovector<T> v(std::move(other)); *)
| op_move_assign (v other : nat)              (* v = std::move(other); *)
| op_emplace_back (v : nat) (args : Args)     (* v.emplace_back(args...); also push_back *)
| op_pop_back (v : nat)
| op_clear (v : nat)
| op_grow (v : nat) (n : Z)                   (* v.uninitialized_grow_back_by(n); *)
| op_shrink (v : nat) (n : Z)                 (* v.uninitialized_shrink_back_by(n); *)
| op_swap (v other : nat)
| op_destroy (v : nat).                       (* v goes out of scope *)

Definition run (o : operation) : M unit :=
  match o with
  | op_default v => ovector_default v
  | op_with_max_size_or_null v n => with_max_size_or_null v n
  | op_move v other => ovector_move v other
  | op_move_assign v other => ovector_move_assign v other
  | op_emplace_back v args => emplace_back v args >> ret tt
  | op_pop_back v => pop_back v
  | op_clear v => clear v
  | op_grow v n => uninitialized_grow_back_by v n
  | op_shrink v n => uninitialized_shrink_back_by v n >> ret tt
  | op_swap v other => swap v other
  | op_destroy v => ovector_destroy v
  end.

Definition is_fresh (v : nat) (m : machine) : bool :=
  match vars m !! v with
  | None => true
  | Some _ => false
  end.

Definition holds (v : nat) (P : ovector_storage -> bool) (m : machine) : bool :=
  match vars m !! v with
  | None => false
  | Some s => P s
  end.

(** The documented preconditions of each call, as the source writes them
    ([@pre] in [ovector.hpp]); arguments are values of [size_type]. *)
Definition requires (o : operation) (m : machine) : bool :=
  match o with
  | op_default v => is_fresh v m
  | op_with_max_size_or_null v n => is_fresh v m && in_size_typeb n
  | op_move v other => is_fresh v m && holds other (fun _ => true) m
  | op_move_assign v other => holds v (fun _ => true) m && holds other (fun _ => true) m
  | op_emplace_back v _ =>
      (* data() != nullptr, max_size() - size() > 0 *)
      holds v (fun s => negb (memory s =? 0) && (0 <? wrap (max_size s - size s))) m
  | op_pop_back v =>
      (* size() != 0 *)
      holds v (fun s => negb (size s =? 0)) m
  | op_clear v => holds v (fun _ => true) m
  | op_grow v n =>
      (* size() + n <= max_size() *)
      in_size_typeb n && holds v (fun s => wrap (size s + n) <=? max_size s) m
  | op_shrink v n =>
      (* size() >= n *)
      in_size_typeb n && holds v (fun s => n <=? size s) m
  | op_swap v other => holds v (fun _ => true) m && holds other (fun _ => true) m
  | op_destroy v => holds v (fun _ => true) m
  end.

(** The program starts with no container, no element and no system call. *)
Definition initial : machine :=
  {| log := []; objects := ∅; vars := ∅ |}.

(** States a program can be in between calls: a call either returns, or an
    element constructor throws and the caller catches the exception.
    Nothing follows [fatal_error]. *)
Inductive reachable : machine -> Prop :=
| reachable_initial : reachable initial
| reachable_return o m m' :
    reachable m -> requires o m = true -> run o m = Ret tt m' -> reachable m'
| reachable_catch o m m' :
    reachable m -> requires o m = true -> run o m = Abort ctor_exception m' ->
    reachable m'.

(** *** Vocabulary of the statements *)

(** The invariant of the storage holder. *)
Definition storage_inv (s : ovector_storage) : Prop :=
  (max_size s = 0 <-> memory s = 0) /\ size s <= max_size s.

(** The invariant together with the ranges of the two [size_type] fields. *)
Definition storage_wf (s : ovector_storage) : Prop :=
  storage_inv s /\ in_size_type (size s) /\ in_size_type (max_size s).

(** A property of every container alive in a state. *)
Definition all_storages (P : ovector_storage -> Prop) (m : machine) : Prop :=
  map_Forall (fun _ s => P s) (vars m).

(** The address of element [i] of a container. *)
Definition element_addr (s : ovector_storage) (i : Z) : Z :=
  memory s + i * sizeof_T.

(** The destructor calls on elements [0 .. k-1], in index order. *)
Definition destroy_events (s : ovector_storage) (k : Z) : list event :=
  (fun i => ev_destroy (element_addr s i)) <$> seqZ 0 k.

(** The object store once the elements [0 .. k-1] are gone. *)
Definition without_elements (s : ovector_storage) (k : Z) (o : gmap Z T) : gmap Z T :=
  foldl (fun o i => delete (element_addr s i) o) o (seqZ 0 k).

(** The system calls of one successful reservation at [base]. *)
Definition reserve_events (base dataSize guardSize : Z) : list event :=
  match pf with
  | Posix => [ev_mmap (dataSize + guardSize); ev_mmap_guard (base + dataSize) guardSize]
  | Windows => [ev_reserve (dataSize + guardSize); ev_commit base dataSize]
  end.

(** The system call that gives a reservation back. *)
Definition release_event (base len : Z) : event :=
  match pf with
  | Posix => ev_munmap base len
  | Windows => ev_free base
  end.

(** Whether the kernel accepts that call after the history [l]. *)
Definition release_accepted (l : list event) (base len : Z) : bool :=
  match pf with
  | Posix => k_release K l base len
  | Windows => k_release K l base 0
  end.

(** The reservation behind a backed storage holder, as [deallocate]
    recomputes it from the fields. *)
Definition data_bytes (s : ovector_storage) : Z := wrap (max_size s * sizeof_T).

Definition reservation_base (s : ovector_storage) : Z :=
  memory s - wrap (ceil_multiple (data_bytes s) PAGE_SIZE - data_bytes s).

Definition reservation_len (s : ovector_storage) : Z :=
  wrap (ceil_multiple (data_bytes s) PAGE_SIZE + ceil_multiple sizeof_T PAGE_SIZE).

(** What [clear()] does to a container with fields [s]: the destructor
    calls it makes, the elements it removes and the fields it leaves. *)
Definition clear_skips (s : ovector_storage) : bool :=
  trivially_destructible || (memory s =? 0).

Definition clear_events (s : ovector_storage) : list event :=
  if clear_skips s then [] else destroy_events s (size s).

Definition clear_objects (s : ovector_storage) (o : gmap Z T) : gmap Z T :=
  if clear_skips s then o else without_elements s (size s) o.

Definition cleared (s : ovector_storage) : ovector_storage :=
  {| memory := memory s;
     size := if trivially_destructible || negb (memory s =? 0) then 0 else size s;
     max_size := max_size s |}.

(** The release of the reservation behind [s], if it has one. *)
Definition deallocate_events (s : ovector_storage) : list event :=
  if memory s =? 0 then []
  else [release_event (reservation_base s) (reservation_len s)].

(** The least multiple of the page size at or above [z], in unbounded
    arithmetic. *)
Definition page_ceiling (z : Z) : Z :=
  PAGE_SIZE * ((z + PAGE_SIZE - 1) / PAGE_SIZE).

(** The value a call returned, if it returned. *)
Definition value_of {R} (o : outcome R) : option R :=
  match o with
  | Ret r _ => Some r
  | Abort _ _ => None
  end.

(** *** Further members and callers *)

(** [return *_storage.memory;], as an address. *)
Definition front (this : nat) : M Z :=
  load this f_memory.

(** [T* push_back(T const& value) { return emplace_back(value); }] and
    [T* push_back(T&& value) { return emplace_back(inlined_move(value)); }]:
    [as_args] makes the one-element argument pack out of the value, by copy
    or by move. *)
Definition push_back (as_args : T -> Args) (this : nat) (value : T) : M Z :=
  emplace_back this (as_args value).

(** A caller appending elements in turn, as the loops
    [for(int i = 0; i != n; ++i) v.push_back(i);] of the benchmarks and the
    consecutive calls of the tests do. *)
Fixpoint emplace_back_each (this : nat) (l : list Args) : M unit :=
  match l with
  | [] => ret tt
  | args :: l' => emplace_back this args >> emplace_back_each this l'
  end.

(** *** Further vocabulary *)

(** What the slots [0 .. size-1] of a container hold. *)
Definition contents (m : machine) (s : ovector_storage) : list (option T) :=
  (fun i => objects m !! element_addr s i) <$> seqZ 0 (size s).

(** The events that are calls into the operating system. *)
Definition is_syscall (e : event) : bool :=
  match e with
  | ev_construct _ | ev_destroy _ => false
  | _ => true
  end.

Definition syscalls (l : list event) : list event :=
  List.filter is_syscall l.

(** The calls that work on the elements of one container. *)
Definition element_operation (o : operation) : option nat :=
  match o with
  | op_emplace_back v _ | op_pop_back v | op_clear v
  | op_grow v _ | op_shrink v _ => Some v
  | _ => None
  end.

(** The first system call of a reservation, the arguments of its second
    one, and the message of [fatal_error] when the second one fails. *)
Definition map_event (len : Z) : event :=
  match pf with
  | Posix => ev_mmap len
  | Windows => ev_reserve len
  end.

Definition protect_accepted (l : list event) (base dataSize guardSize : Z) : bool :=
  match pf with
  | Posix => k_protect K l (base + dataSize) guardSize
  | Windows => k_protect K l base dataSize
  end.

Definition protect_failure : string :=
  match pf with
  | Posix => "failed to enable guard page"
  | Windows => "failed to commit allocation"
  end.

(** ** Properties *)

(** *** Address-size arithmetic *)

Lemma modulus_value : 2 ^ size_bits = 18446744073709551616.
Proof. reflexivity. Qed.

Lemma wrap_small z : in_size_type z -> wrap z = z.
Proof.
  unfold in_size_type, SIZE_TYPE_MAX, wrap. rewrite modulus_value.
  intros Hz. apply Z.mod_small. lia.
Qed.

Lemma wrap_range z : in_size_type (wrap z).
Proof.
  unfold in_size_type, SIZE_TYPE_MAX, wrap. rewrite modulus_value.
  pose proof (Z.mod_pos_bound z 18446744073709551616). lia.
Qed.

Lemma in_size_typeb_true z : in_size_typeb z = true <-> in_size_type z.
Proof. unfold in_size_typeb, in_size_type. lia. Qed.

(** The largest size that still rounds up to a page multiple. *)
Lemma rounding_limit :
  wrap (wrap (SIZE_TYPE_MAX - PAGE_SIZE) + 1) = SIZE_TYPE_MAX - PAGE_SIZE + 1.
Proof. reflexivity. Qed.

(** Below the limit, [ceil_multiple] is the least page multiple at or above
    its argument, and it is computed without wrap-around. *)
Lemma ceil_multiple_page d :
  0 <= d <= SIZE_TYPE_MAX - PAGE_SIZE + 1 ->
  d <= ceil_multiple d PAGE_SIZE < d + PAGE_SIZE
  /\ ceil_multiple d PAGE_SIZE mod PAGE_SIZE = 0
  /\ ceil_multiple d PAGE_SIZE <= SIZE_TYPE_MAX - PAGE_SIZE + 1.
Proof.
  unfold ceil_multiple, SIZE_TYPE_MAX, PAGE_SIZE. rewrite modulus_value.
  intros Hd.
  pose proof (Z.div_mod d 4096 ltac:(lia)) as Hdm.
  pose proof (Z.mod_pos_bound d 4096 ltac:(lia)) as Hr.
  set (q := d / 4096) in *. set (r := d mod 4096) in *.
  assert (Hq : 0 <= q) by lia.
  destruct (Z.eqb_spec r 0) as [Hr0 | Hr0].
  - rewrite Z.add_0_r, (wrap_small q), (wrap_small (q * 4096)).
    + rewrite Z.mod_mul by lia. lia.
    + unfold in_size_type, SIZE_TYPE_MAX. rewrite modulus_value. lia.
    + unfold in_size_type, SIZE_TYPE_MAX. rewrite modulus_value. lia.
  - rewrite (wrap_small (q + 1)), (wrap_small ((q + 1) * 4096)).
    + rewrite Z.mod_mul by lia. lia.
    + unfold in_size_type, SIZE_TYPE_MAX. rewrite modulus_value. lia.
    + unfold in_size_type, SIZE_TYPE_MAX. rewrite modulus_value. lia.
Qed.

(** [add_overflows] is exact on values of [size_type]. *)
Lemma add_overflows_spec a b :
  in_size_type a -> in_size_type b ->
  add_overflows a b = true <-> SIZE_TYPE_MAX < a + b.
Proof.
  intros Ha Hb. unfold add_overflows.
  rewrite wrap_small by (unfold in_size_type in *; lia). lia.
Qed.

(** *** The guarded allocator *)

(** Unfolds the monad down to matches on the kernel's answers. *)
Ltac run_monad :=
  unfold bind, ret, raise, sys_map, sys_protect, sys_release in *; cbn in *.

(** A successful platform reservation: the kernel granted a page, and the
    log grew by the calls of one reservation. *)
Lemma os_guarded_alloc_success dataSize guardSize m base m' :
  dataSize + guardSize <= SIZE_TYPE_MAX -> 0 <= dataSize + guardSize ->
  os_guarded_alloc dataSize guardSize m = Ret base m' -> base <> 0 ->
  (exists page, k_map K (log m) (dataSize + guardSize) = Some page
                /\ base = PAGE_SIZE * Z.pos page)
  /\ m' = {| log := log m ++ reserve_events base dataSize guardSize;
             objects := objects m; vars := vars m |}.
Proof.
  intros Hmax Hmin Hrun Hbase.
  unfold os_guarded_alloc, reserve_events in *.
  rewrite wrap_small in Hrun by (unfold in_size_type; lia).
  destruct pf; run_monad.
  - destruct (k_map K (log m) (dataSize + guardSize)) as [page|]; cbn in Hrun;
      [| congruence].
    destruct (k_protect K _ _ _); cbn in Hrun; [| congruence].
    injection Hrun as <- <-. split; [eauto |].
    unfold emit; cbn. by rewrite <- app_assoc.
  - destruct (k_map K (log m) (dataSize + guardSize)) as [page|]; cbn in Hrun;
      [| congruence].
    destruct (k_protect K _ _ _); cbn in Hrun; [| congruence].
    injection Hrun as <- <-. split; [eauto |].
    unfold emit; cbn. by rewrite <- app_assoc.
Qed.

(** What a successful [guarded_alloc] did. *)
Lemma guarded_alloc_success d g m p m' :
  in_size_type d -> in_size_type g ->
  guarded_alloc d g m = Ret p m' -> p <> 0 ->
  let cd := ceil_multiple d PAGE_SIZE in
  let cg := ceil_multiple g PAGE_SIZE in
  0 < d /\ d <= cd < d + PAGE_SIZE /\ cd + cg <= SIZE_TYPE_MAX /\ 0 <= cg
  /\ exists base,
       os_guarded_alloc cd cg m = Ret base m' /\ base <> 0 /\ p = base + (cd - d).
Proof.
  intros Hd Hg Hrun Hp cd cg. unfold guarded_alloc in Hrun.
  destruct (Z.eqb_spec d 0) as [-> | Hd0]; [unfold ret in Hrun; cbn in Hrun; congruence |].
  rewrite rounding_limit in Hrun.
  destruct (Z.ltb_spec (SIZE_TYPE_MAX - PAGE_SIZE + 1) d) as [Hbig | Hdl];
    [unfold ret in Hrun; cbn in Hrun; congruence |].
  destruct (Z.ltb_spec (SIZE_TYPE_MAX - PAGE_SIZE + 1) g) as [Hbig | Hgl];
    [unfold ret in Hrun; cbn in Hrun; congruence |].
  cbn [orb] in Hrun. fold cd cg in Hrun.
  destruct (ceil_multiple_page d) as (Hcd & _ & Hcdmax); [unfold in_size_type in *; lia |].
  destruct (ceil_multiple_page g) as (Hcg & _ & Hcgmax); [unfold in_size_type in *; lia |].
  fold cd in Hcd, Hcdmax. fold cg in Hcg, Hcgmax.
  assert (Hcdr : in_size_type cd)
    by (unfold in_size_type, SIZE_TYPE_MAX, PAGE_SIZE in *; rewrite modulus_value in *; lia).
  assert (Hcgr : in_size_type cg)
    by (unfold in_size_type, SIZE_TYPE_MAX, PAGE_SIZE in *; rewrite modulus_value in *; lia).
  destruct (add_overflows cd cg) eqn:Hov; [unfold ret in Hrun; cbn in Hrun; congruence |].
  assert (Hsum : cd + cg <= SIZE_TYPE_MAX).
  { destruct (Z.le_gt_cases (cd + cg) SIZE_TYPE_MAX) as [|Hgt]; [done |].
    apply (add_overflows_spec cd cg Hcdr Hcgr) in Hgt. congruence. }
  unfold bind in Hrun.
  destruct (os_guarded_alloc cd cg m) as [base m1 | why m1] eqn:Hos; [| congruence].
  destruct (Z.eqb_spec base 0) as [-> | Hbase]; [unfold ret in Hrun; cbn in Hrun; congruence |].
  unfold ret in Hrun; cbn in Hrun. injection Hrun as <- <-.
  rewrite wrap_small by (unfold in_size_type in *; lia).
  repeat split; try (unfold in_size_type in *; lia).
  exists base. done.
Qed.

Lemma os_dealloc_accepted base len m :
  release_accepted (log m) base len = true ->
  os_dealloc base len m = Ret tt (emit (release_event base len) m).
Proof.
  unfold release_accepted, os_dealloc, release_event.
  destruct pf; run_monad; intros ->; done.
Qed.

Lemma os_dealloc_refused base len m :
  release_accepted (log m) base len = false ->
  exists message,
    os_dealloc base len m = Abort (fatal_error message) (emit (release_event base len) m).
Proof.
  unfold release_accepted, os_dealloc, release_event.
  destruct pf; run_monad; intros ->; eauto.
Qed.

(** Below the limit the wrapped computation is the unbounded one. *)
Lemma ceil_multiple_page_ceiling d :
  0 <= d <= SIZE_TYPE_MAX - PAGE_SIZE + 1 ->
  ceil_multiple d PAGE_SIZE = page_ceiling d.
Proof.
  intros Hd. destruct (ceil_multiple_page d Hd) as (Hb & Hm & _).
  unfold page_ceiling. revert Hb Hm. generalize (ceil_multiple d PAGE_SIZE).
  unfold PAGE_SIZE. intros c Hb Hm.
  apply Z.mod_divide in Hm; [| lia]. destruct Hm as [k ->].
  assert (Hk : (d + 4096 - 1) / 4096 = k); [| lia].
  symmetry. apply (Z.div_unique _ _ _ (d + 4096 - 1 - k * 4096)); lia.
Qed.

(** The allocator refuses, without any system call, every request whose
    page-rounded sizes do not fit the address-size arithmetic. *)
Lemma guarded_alloc_rounding_overflow d g m :
  in_size_type d -> in_size_type g ->
  SIZE_TYPE_MAX < page_ceiling d + page_ceiling g ->
  guarded_alloc d g m = Ret 0 m.
Proof.
  intros Hd Hg Hov. unfold guarded_alloc.
  destruct (Z.eqb_spec d 0) as [-> | Hd0]; [done |].
  rewrite rounding_limit.
  destruct (Z.ltb_spec (SIZE_TYPE_MAX - PAGE_SIZE + 1) d) as [Hbig | Hdl]; [done |].
  destruct (Z.ltb_spec (SIZE_TYPE_MAX - PAGE_SIZE + 1) g) as [Hbig | Hgl]; [done |].
  cbn [orb].
  rewrite <- !ceil_multiple_page_ceiling in Hov by (unfold in_size_type in *; lia).
  destruct (ceil_multiple_page d) as (Hcd & _ & Hcdmax); [unfold in_size_type in *; lia |].
  destruct (ceil_multiple_page g) as (Hcg & _ & Hcgmax); [unfold in_size_type in *; lia |].
  assert (Hov' : add_overflows (ceil_multiple d PAGE_SIZE) (ceil_multiple g PAGE_SIZE) = true).
  { apply add_overflows_spec; [| | done];
      unfold in_size_type, SIZE_TYPE_MAX, PAGE_SIZE in *; rewrite modulus_value in *; lia. }
  by rewrite Hov'.
Qed.

(** C3.  Whenever [guarded_alloc(data_size, guard_size)] succeeds, the
    pointer it returns is the base of the reservation plus the rounding
    slack [rounded_data_size - data_size]: the [data_size] bytes from the
    returned pointer end exactly where the guard begins (on POSIX the
    address handed to the guarding [mmap], on Windows the end of the
    committed range), and the slack is less than one page. *)
Theorem guarded_alloc_pointer_offset d g m p m' :
  in_size_type d -> in_size_type g ->
  guarded_alloc d g m = Ret p m' -> p <> 0 ->
  let cd := ceil_multiple d PAGE_SIZE in
  let cg := ceil_multiple g PAGE_SIZE in
  0 < d
  /\ exists base,
       os_guarded_alloc cd cg m = Ret base m'
       /\ log m' = log m ++ reserve_events base cd cg
       /\ p = base + (cd - d)
       /\ p + d = base + cd
       /\ 0 <= cd - d < PAGE_SIZE.
Proof.
  intros Hd Hg Hrun Hp cd cg.
  destruct (guarded_alloc_success d g m p m' Hd Hg Hrun Hp)
    as (Hpos & Hcd & Hsum & Hcg & base & Hos & Hbase & ->).
  fold cd cg in Hcd, Hsum, Hcg, Hos. split; [done |].
  exists base. repeat split; try lia; try done.
  destruct (os_guarded_alloc_success cd cg m base m') as [_ ->]; try done; lia.
Qed.

(** C4.  After a successful [guarded_alloc(data_size, guard_size)],
    [guarded_dealloc] on the returned pointer with the same two sizes hands
    the platform layer the base of the original reservation and the length
    [rounded_data_size + rounded_guard_size] that was reserved; when the
    kernel accepts the call the log grows by exactly that one release, and
    otherwise the process stops in [fatal_error]. *)
Theorem guarded_dealloc_releases_reservation d g m p m1 m2 :
  in_size_type d -> in_size_type g ->
  guarded_alloc d g m = Ret p m1 -> p <> 0 ->
  let cd := ceil_multiple d PAGE_SIZE in
  let cg := ceil_multiple g PAGE_SIZE in
  exists base,
    os_guarded_alloc cd cg m = Ret base m1
    /\ log m1 = log m ++ reserve_events base cd cg
    /\ guarded_dealloc p d g m2 = os_dealloc base (cd + cg) m2
    /\ (release_accepted (log m2) base (cd + cg) = true ->
        guarded_dealloc p d g m2 = Ret tt (emit (release_event base (cd + cg)) m2))
    /\ (release_accepted (log m2) base (cd + cg) = false ->
        exists message,
          guarded_dealloc p d g m2
          = Abort (fatal_error message) (emit (release_event base (cd + cg)) m2)).
Proof.
  intros Hd Hg Hrun Hp cd cg.
  destruct (guarded_alloc_success d g m p m1 Hd Hg Hrun Hp)
    as (Hpos & Hcd & Hsum & Hcg & base & Hos & Hbase & ->).
  fold cd cg in Hcd, Hsum, Hcg, Hos.
  assert (Hde : guarded_dealloc (base + (cd - d)) d g m2 = os_dealloc base (cd + cg) m2).
  { unfold guarded_dealloc. fold cd cg.
    rewrite !wrap_small by (unfold in_size_type in *; lia).
    f_equal. lia. }
  exists base. split; [done |]. split.
  { destruct (os_guarded_alloc_success cd cg m base m1) as [_ ->]; try done; lia. }
  split; [done |]. split; intros Hacc.
  - etransitivity; [exact Hde | by apply os_dealloc_accepted].
  - destruct (os_dealloc_refused _ _ _ Hacc) as [message Hmsg].
    exists message. etransitivity; [exact Hde | exact Hmsg].
Qed.

(** C5.  [with_max_size_or_null(n)] builds its container from what
    [guarded_alloc(n * sizeof(T), sizeof(T))] returned: on a non-null
    pointer, [max_size() == n] and [size() == 0]; on null, [max_size() == 0]
    and [data() == nullptr].  For [n == 0] the allocator returns null at
    once, without a system call, and the container is unbacked. *)
Theorem with_max_size_or_null_spec v n m p m1 :
  guarded_alloc (wrap (n * sizeof_T)) sizeof_T m = Ret p m1 ->
  (exists s,
     with_max_size_or_null v n m = Ret tt (with_vars (<[v := s]> (vars m1)) m1)
     /\ memory s = p /\ size s = 0
     /\ (p <> 0 -> max_size s = n)
     /\ (p = 0 -> max_size s = 0))
  /\ (n = 0 ->
      p = 0 /\ m1 = m
      /\ with_max_size_or_null v n m = Ret tt (with_vars (<[v := unbacked]> (vars m)) m)).
Proof.
  intros Hrun. split.
  - eexists. unfold with_max_size_or_null, ovector_sized, storage_sized, bind.
    rewrite Hrun. unfold declare. split; [reflexivity |]. cbn.
    repeat split.
    + intros Hp. by destruct (Z.eqb_spec p 0).
    + by intros ->.
  - intros ->. unfold with_max_size_or_null, ovector_sized, storage_sized, bind.
    revert Hrun. cbn. unfold ret. intros [= <- <-]. done.
Qed.

(** The reservation [deallocate] recomputes from the fields of a container
    made by [with_max_size_or_null] is the one the kernel granted. *)
Lemma with_max_size_or_null_reservation v n m m' s :
  in_size_type sizeof_T ->
  with_max_size_or_null v n m = Ret tt m' ->
  vars m' !! v = Some s -> memory s <> 0 ->
  let cd := ceil_multiple (wrap (n * sizeof_T)) PAGE_SIZE in
  let cg := ceil_multiple sizeof_T PAGE_SIZE in
  exists base,
    log m' = log m ++ reserve_events base cd cg
    /\ max_size s = n
    /\ reservation_base s = base
    /\ reservation_len s = cd + cg.
Proof.
  intros Hsz Hrun Hs Hbacked cd cg.
  unfold with_max_size_or_null, ovector_sized, storage_sized, bind in Hrun.
  destruct (guarded_alloc (wrap (n * sizeof_T)) sizeof_T m) as [p m1 | why m1] eqn:Halloc;
    [| done].
  unfold declare in Hrun. injection Hrun as <-. cbn in Hs.
  rewrite lookup_insert_eq in Hs. injection Hs as <-. cbn in Hbacked.
  destruct (guarded_alloc_success _ _ m p m1 (wrap_range _) Hsz Halloc Hbacked)
    as (Hpos & Hcd & Hsum & Hcg & base & Hos & Hbase & ->).
  fold cd cg in Hcd, Hsum, Hcg, Hos.
  destruct (os_guarded_alloc_success cd cg m base m1) as [_ ->]; try done; [lia |].
  exists base. unfold reservation_base, reservation_len, data_bytes. cbn.
  pose proof (wrap_range (n * sizeof_T)) as Hd.
  fold cd cg in Hbacked |- *. set (d := wrap (n * sizeof_T)) in *.
  destruct (Z.eqb_spec (base + (cd - d)) 0) as [| _]; [done |].
  fold d cd. rewrite (wrap_small (cd - d)), (wrap_small (cd + cg))
    by (unfold in_size_type in *; lia).
  repeat split. lia.
Qed.

(** *** Running container code *)

(** Runs straight-line member-function code on a known store. *)
Ltac exec :=
  repeat first
    [ progress cbn
    | progress unfold with_vars, with_objects, emit
    | rewrite lookup_insert_eq
    | rewrite lookup_insert_ne by congruence
    | match goal with H : vars _ !! _ = _ |- _ => rewrite H end ].

(** Equality of stores built from a few writes. *)
Ltac store_eq :=
  apply map_eq; intros ?;
  repeat (rewrite lookup_insert; case_decide; subst; try congruence);
  try done.

Lemma destroy_loop_run s n i m :
  0 <= i -> i + Z.of_nat n <= SIZE_TYPE_MAX ->
  destroy_loop n (memory s) i m
  = Ret tt {| log := log m ++ ((fun j => ev_destroy (element_addr s j)) <$> seqZ i (Z.of_nat n));
              objects := foldl (fun o j => delete (element_addr s j) o) (objects m)
                               (seqZ i (Z.of_nat n));
              vars := vars m |}.
Proof.
  revert i m. induction n as [| n IH]; intros i m Hi Hn.
  - cbn. unfold ret. rewrite app_nil_r. by destruct m.
  - cbn [destroy_loop]. unfold bind, destroy.
    rewrite wrap_small by (unfold in_size_type; lia).
    rewrite IH by lia.
    rewrite (seqZ_cons i (Z.of_nat (S n))) by lia.
    replace (Z.pred (Z.of_nat (S n))) with (Z.of_nat n) by lia.
    replace (Z.succ i) with (i + 1) by lia.
    cbn. by rewrite <- app_assoc.
Qed.

(** [clear()] on any container. *)
Lemma clear_run this m s :
  vars m !! this = Some s -> in_size_type (size s) ->
  clear this m
  = Ret tt {| log := log m ++ clear_events s;
              objects := clear_objects s (objects m);
              vars := <[this := cleared s]> (vars m) |}.
Proof.
  intros Hs Hsize.
  unfold clear, clear_events, clear_objects, cleared, clear_skips.
  destruct trivially_destructible.
  - unfold clear_impl_true, store. exec. by rewrite app_nil_r.
  - unfold clear_impl_false, bind, load, store. exec.
    destruct (Z.eqb_spec (memory s) 0) as [Hnull | Hbacked].
    + exec. unfold ret. rewrite app_nil_r, insert_id; [by destruct m |].
      rewrite Hs. by destruct s.
    + exec. rewrite destroy_loop_run by (unfold in_size_type in *; lia).
      exec. rewrite Z2Nat.id by (unfold in_size_type in *; lia). done.
Qed.

(** [deallocate()] on any container. *)
Lemma deallocate_run this m s :
  vars m !! this = Some s ->
  (memory s <> 0 ->
   release_accepted (log m) (reservation_base s) (reservation_len s) = true) ->
  deallocate this m
  = Ret tt {| log := log m ++ deallocate_events s;
              objects := objects m; vars := vars m |}.
Proof.
  intros Hs Hacc. unfold deallocate, deallocate_events, bind, load. exec.
  destruct (Z.eqb_spec (memory s) 0) as [Hnull | Hbacked].
  - unfold ret. rewrite app_nil_r. by destruct m.
  - exec. unfold guarded_dealloc.
    apply os_dealloc_accepted. by apply Hacc.
Qed.

Lemma deallocate_outcome this m s :
  vars m !! this = Some s ->
  deallocate this m
  = Ret tt {| log := log m ++ deallocate_events s;
              objects := objects m; vars := vars m |}
  \/ exists message m', deallocate this m = Abort (fatal_error message) m'.
Proof.
  intros Hs. destruct (decide (memory s = 0)) as [Hnull | Hbacked].
  - left. by apply deallocate_run.
  - destruct (release_accepted (log m) (reservation_base s) (reservation_len s))
      eqn:Hacc.
    + left. by apply deallocate_run.
    + right. unfold deallocate, bind, load. rewrite Hs. cbn.
      destruct (Z.eqb_spec (memory s) 0) as [| _]; [done |].
      rewrite Hs. cbn.
      destruct (os_dealloc_refused _ _ _ Hacc) as [message Hmsg].
      exists message. eexists. exact Hmsg.
Qed.

(** The three exchanges of the storage move assignment, once [deallocate]
    has returned.  On one and the same container every field is taken out
    and put back. *)
Lemma storage_move_assign_step this other m m1 d s :
  vars m !! this = Some d -> vars m !! other = Some s ->
  deallocate this m = Ret tt m1 -> vars m1 = vars m ->
  storage_move_assign this other m
  = Ret tt (with_vars (if decide (this = other) then vars m
                       else <[this := s]> (<[other := unbacked]> (vars m))) m1).
Proof.
  intros Hd Hs Hde Hv. unfold storage_move_assign, bind at 1. rewrite Hde.
  assert (Hd1 : vars m1 !! this = Some d) by (by rewrite Hv).
  assert (Hs1 : vars m1 !! other = Some s) by (by rewrite Hv).
  clear Hd Hs Hde. unfold inlined_exchange, bind, load, store, ret.
  case_decide as Heq.
  - subst other. assert (d = s) as -> by congruence.
    exec. rewrite <- Hv. do 2 f_equal. apply map_eq. intros v.
    destruct (decide (v = this)) as [-> | Hv'].
    + rewrite lookup_insert_eq, Hs1. by destruct s.
    + by rewrite !lookup_insert_ne.
  - exec. rewrite <- Hv. do 2 f_equal. unfold unbacked. destruct s. cbn. store_eq.
Qed.

Lemma storage_move_assign_run this other m d s :
  vars m !! this = Some d -> vars m !! other = Some s ->
  (memory d <> 0 ->
   release_accepted (log m) (reservation_base d) (reservation_len d) = true) ->
  storage_move_assign this other m
  = Ret tt {| log := log m ++ deallocate_events d;
              objects := objects m;
              vars := if decide (this = other) then vars m
                      else <[this := s]> (<[other := unbacked]> (vars m)) |}.
Proof.
  intros Hd Hs Hacc.
  by rewrite (storage_move_assign_step this other m _ d s Hd Hs
                (deallocate_run this m d Hd Hacc)).
Qed.

(** Move construction. *)
Lemma ovector_move_run this other m s :
  this <> other -> vars m !! other = Some s ->
  ovector_move this other m
  = Ret tt (with_vars (<[this := s]> (<[other := unbacked]> (vars m))) m).
Proof.
  intros Hne Hs. unfold ovector_move, storage_move, inlined_exchange, declare.
  unfold bind, load, store, ret. exec.
  do 2 f_equal. unfold unbacked. destruct s. cbn. store_eq.
Qed.

(** What [detail::inlined_move] does to a storage holder: the temporary it
    returns is a new object holding the fields, and the argument is left
    unbacked. *)
Lemma inlined_move_run value m s :
  vars m !! value = Some s ->
  let temporary := fresh (dom (vars m)) in
  vars m !! temporary = None
  /\ inlined_move value m
     = Ret temporary
           (with_vars (<[temporary := s]> (<[value := unbacked]> (vars m))) m).
Proof.
  intros Hs temporary.
  assert (Hfresh : vars m !! temporary = None)
    by apply not_elem_of_dom, fin_sets.is_fresh.
  split; [done |].
  unfold inlined_move, bind. fold temporary.
  change (storage_move temporary value) with (ovector_move temporary value).
  rewrite (ovector_move_run temporary value m s); [done | congruence | done].
Qed.

Lemma deallocate_refused this m s :
  vars m !! this = Some s -> memory s <> 0 ->
  release_accepted (log m) (reservation_base s) (reservation_len s) = false ->
  exists message m', deallocate this m = Abort (fatal_error message) m'.
Proof.
  intros Hs Hbacked Hacc. unfold deallocate, bind, load. rewrite Hs. cbn.
  destruct (Z.eqb_spec (memory s) 0) as [| _]; [done |].
  rewrite Hs. cbn.
  destruct (os_dealloc_refused _ _ _ Hacc) as [message Hmsg].
  exists message. eexists. exact Hmsg.
Qed.

(** The destructor of a storage holder that owns nothing. *)
Lemma storage_destroy_unbacked this m s :
  vars m !! this = Some s -> memory s = 0 ->
  storage_destroy this m = Ret tt (with_vars (delete this (vars m)) m).
Proof.
  intros Hs Hnull. unfold storage_destroy, bind.
  rewrite (deallocate_run this m s Hs) by done.
  unfold deallocate_events, undeclare, with_vars. rewrite Hnull. cbn.
  by rewrite app_nil_r.
Qed.

(** Move assignment up to the storage assignment: [clear()] has run and
    the temporary holds what the source held.  When the source is the
    target itself, the target is unbacked at that point. *)
Lemma ovector_move_assign_unfold this other m d s :
  vars m !! this = Some d -> vars m !! other = Some s -> in_size_type (size d) ->
  let temporary := fresh (dom (<[this := cleared d]> (vars m))) in
  let moved := if decide (this = other) then cleared d else s in
  temporary <> this /\ temporary <> other /\ vars m !! temporary = None
  /\ ovector_move_assign this other m
     = bind (storage_move_assign this temporary)
            (fun _ => storage_destroy temporary)
            {| log := log m ++ clear_events d;
               objects := clear_objects d (objects m);
               vars := <[temporary := moved]>
                         (<[other := unbacked]> (<[this := cleared d]> (vars m))) |}.
Proof.
  intros Hd Hs Hsize temporary moved.
  set (m1 := {| log := log m ++ clear_events d;
                objects := clear_objects d (objects m);
                vars := <[this := cleared d]> (vars m) |}).
  assert (Hd1 : vars m1 !! this = Some (cleared d))
    by (cbn; by rewrite lookup_insert_eq).
  assert (Hs1 : vars m1 !! other = Some moved).
  { cbn. unfold moved. case_decide as Heq.
    - subst other. by rewrite lookup_insert_eq.
    - by rewrite lookup_insert_ne. }
  destruct (inlined_move_run other m1 moved Hs1) as [Hfresh Hmove].
  change (fresh (dom (vars m1))) with temporary in Hfresh, Hmove.
  assert (Hthis : temporary <> this) by congruence.
  assert (Hother : temporary <> other) by congruence.
  split; [done |]. split; [done |]. split.
  - cbn in Hfresh. by rewrite lookup_insert_ne in Hfresh.
  - unfold ovector_move_assign, bind at 1.
    rewrite (clear_run this m d Hd Hsize). fold m1.
    unfold bind at 1. by rewrite Hmove.
Qed.

(** Move assignment, when the kernel accepts the release.  Between two
    containers the target gives its reservation back and takes the fields of
    the source.  On one and the same container the temporary holds the
    fields while [deallocate] runs, so nothing is released and the fields
    come back. *)
Lemma ovector_move_assign_run this other m d s :
  vars m !! this = Some d -> vars m !! other = Some s -> in_size_type (size d) ->
  (this <> other -> memory d <> 0 ->
   release_accepted (log m ++ clear_events d)
                    (reservation_base d) (reservation_len d) = true) ->
  ovector_move_assign this other m
  = Ret tt {| log := log m ++ clear_events d
                     ++ (if decide (this = other) then [] else deallocate_events d);
              objects := clear_objects d (objects m);
              vars := if decide (this = other) then <[this := cleared d]> (vars m)
                      else <[this := s]> (<[other := unbacked]> (vars m)) |}.
Proof.
  intros Hd Hs Hsize Hacc.
  destruct (ovector_move_assign_unfold this other m d s Hd Hs Hsize)
    as (Hthis & Hother & Hfresh & ->).
  set (temporary := fresh (dom (<[this := cleared d]> (vars m)))) in *.
  unfold bind at 1.
  rewrite (storage_move_assign_run this temporary _
             (if decide (this = other) then unbacked else cleared d)
             (if decide (this = other) then cleared d else s)).
  - rewrite (decide_False (P := this = temporary)) by congruence.
    rewrite (storage_destroy_unbacked temporary _ unbacked).
    + unfold with_vars. cbn. rewrite <- app_assoc. do 2 f_equal.
      * by case_decide.
      * apply map_eq. intros k.
        destruct (decide (k = temporary)) as [-> | Hk].
        { rewrite lookup_delete_eq. case_decide.
          - by rewrite lookup_insert_ne.
          - by rewrite !lookup_insert_ne. }
        rewrite lookup_delete_ne by done.
        case_decide as Heq.
        { subst other.
          repeat (rewrite lookup_insert; case_decide; subst; try congruence). }
        repeat (rewrite lookup_insert; case_decide; subst; try congruence).
    + cbn. rewrite lookup_insert_ne by done. by rewrite lookup_insert_eq.
    + done.
  - cbn. rewrite lookup_insert_ne by done. case_decide as Heq.
    + subst other. by rewrite lookup_insert_eq.
    + rewrite lookup_insert_ne by done. by rewrite lookup_insert_eq.
  - cbn. by rewrite lookup_insert_eq.
  - cbn [log]. case_decide as Heq; [done |]. intros Hbacked. by apply Hacc.
Qed.

(** Move assignment either returns as above or stops in [fatal_error]. *)
Lemma ovector_move_assign_outcome this other m d s :
  vars m !! this = Some d -> vars m !! other = Some s -> in_size_type (size d) ->
  (exists m',
     ovector_move_assign this other m = Ret tt m'
     /\ vars m' = if decide (this = other) then <[this := cleared d]> (vars m)
                  else <[this := s]> (<[other := unbacked]> (vars m)))
  \/ exists message m', ovector_move_assign this other m = Abort (fatal_error message) m'.
Proof.
  intros Hd Hs Hsize.
  destruct (decide (this <> other /\ memory d <> 0
                    /\ release_accepted (log m ++ clear_events d)
                         (reservation_base d) (reservation_len d) = false))
    as [(Hne & Hbacked & Hacc) | Hgood].
  - right.
    destruct (ovector_move_assign_unfold this other m d s Hd Hs Hsize)
      as (Hthis & Hother & Hfresh & ->).
    set (temporary := fresh (dom (<[this := cleared d]> (vars m)))) in *.
    set (m2 := {| log := log m ++ clear_events d; objects := _; vars := _ |}).
    destruct (deallocate_refused this m2 (cleared d)) as (message & m' & Hfatal).
    + cbn. rewrite !lookup_insert_ne by done. by rewrite lookup_insert_eq.
    + done.
    + exact Hacc.
    + unfold bind at 1. unfold storage_move_assign, bind at 1.
      rewrite Hfatal. eauto.
  - left. eexists. split.
    + apply (ovector_move_assign_run this other m d s Hd Hs Hsize).
      intros Hne Hbacked.
      destruct (release_accepted _ _ _) eqn:Hacc; [done |].
      by destruct Hgood.
    + done.
Qed.

(** C7.  Between two different containers, move construction and move
    assignment leave the source unbacked and give the target exactly the
    base pointer, size and capacity the source had.  Move assignment first
    runs [clear()] on the target (destroying its elements), then releases
    the reservation the target owned, and only then takes the fields. *)
Theorem move_transfers_storage this other m s :
  this <> other -> vars m !! other = Some s ->
  (vars m !! this = None ->
   ovector_move this other m
   = Ret tt (with_vars (<[this := s]> (<[other := unbacked]> (vars m))) m))
  /\ (forall d,
        vars m !! this = Some d -> in_size_type (size d) ->
        (memory d <> 0 ->
         release_accepted (log m ++ clear_events d)
                          (reservation_base d) (reservation_len d) = true) ->
        ovector_move_assign this other m
        = Ret tt {| log := log m ++ clear_events d ++ deallocate_events d;
                    objects := clear_objects d (objects m);
                    vars := <[this := s]> (<[other := unbacked]> (vars m)) |}).
Proof.
  intros Hne Hs. split.
  - intros _. by apply ovector_move_run.
  - intros d Hd Hsize Hacc.
    rewrite (ovector_move_assign_run this other m d s Hd Hs Hsize (fun _ => Hacc)).
    by rewrite !decide_False.
Qed.

(** Constructor and destructor calls are no system calls. *)
Lemma syscalls_app l1 l2 : syscalls (l1 ++ l2) = syscalls l1 ++ syscalls l2.
Proof. apply List.filter_app. Qed.

Lemma syscalls_destroy_events s k : syscalls (destroy_events s k) = [].
Proof.
  unfold destroy_events. induction (seqZ 0 k) as [| i l IH]; [done |]. exact IH.
Qed.

Lemma syscalls_clear_events s : syscalls (clear_events s) = [].
Proof.
  unfold clear_events. destruct (clear_skips s); [done |].
  apply syscalls_destroy_events.
Qed.

(** C10, amended.  Move-assigning a backed container to itself destroys its
    elements and then puts every field back: the container keeps its
    non-null base pointer and its non-zero capacity, with size 0.  Its
    reservation is not released: [detail::inlined_move] returns by value, so
    a temporary holds the fields while [deallocate] runs on the emptied
    storage, and no system call is made. *)
Theorem self_move_assign_keeps_reservation x m s :
  vars m !! x = Some s -> in_size_type (size s) ->
  memory s <> 0 -> max_size s <> 0 ->
  exists m',
    ovector_move_assign x x m = Ret tt m'
    /\ vars m' = <[x := {| memory := memory s; size := 0; max_size := max_size s |}]>
                   (vars m)
    /\ memory s <> 0 /\ max_size s <> 0
    /\ log m' = log m ++ clear_events s
    /\ syscalls (log m') = syscalls (log m)
    /\ objects m' = clear_objects s (objects m).
Proof.
  intros Hs Hsize Hbacked Hcap. eexists. split.
  - by apply (ovector_move_assign_run x x m s s).
  - cbn. rewrite !decide_True by done. rewrite app_nil_r.
    split; [| split; [done | split; [done | split; [done | split; [| done]]]]].
    + unfold cleared. destruct (Z.eqb_spec (memory s) 0) as [| _]; [done |].
      cbn. by rewrite orb_true_r.
    + by rewrite syscalls_app, syscalls_clear_events, app_nil_r.
Qed.

(** *** Elements *)

(** C2.  On a backed container with [size < max_size], [emplace_back]
    constructs the element at offset [size] before it touches the size.
    When the constructor throws, the exception leaves [emplace_back] with
    the whole state, and so the size, as it was.  When it succeeds, the
    size has grown by exactly one, the new element lives at the returned
    pointer, and that pointer is the address of [back()]. *)
Theorem emplace_back_strong_guarantee this args m s :
  vars m !! this = Some s -> memory s <> 0 ->
  in_size_type (size s) -> in_size_type (max_size s) -> size s < max_size s ->
  let base := element_addr s (size s) in
  match construct args with
  | None => emplace_back this args m = Abort ctor_exception m
  | Some x =>
      exists m',
        emplace_back this args m = Ret base m'
        /\ vars m' = <[this := {| memory := memory s;
                                  size := size s + 1;
                                  max_size := max_size s |}]> (vars m)
        /\ objects m' = <[base := x]> (objects m)
        /\ objects m' !! base = Some x
        /\ log m' = log m ++ [ev_construct base]
        /\ back this m' = Ret base m'
  end.
Proof.
  intros Hs Hbacked Hsize Hmax Hroom base.
  assert (Hw : wrap (size s + 1) = size s + 1)
    by (apply wrap_small; unfold in_size_type in *; lia).
  unfold emplace_back, uninitialized_grow_back_by, placement_new.
  unfold bind, load, store, ret. exec. fold (element_addr s (size s)). fold base.
  destruct (construct args) as [x |]; [| done].
  exec. rewrite Hw. eexists. split; [reflexivity |]. cbn.
  rewrite lookup_insert_eq. repeat split.
  unfold back, bind, load, ret. exec.
  replace (size s + 1 - 1) with (size s) by lia.
  by rewrite (wrap_small (size s)).
Qed.

Lemma foldl_delete_lookup (f : Z -> Z) (l : list Z) (o : gmap Z T) (a : Z) :
  foldl (fun o i => delete (f i) o) o l !! a
  = if decide (a ∈ f <$> l) then None else o !! a.
Proof.
  revert o. induction l as [| i l IH]; intros o; cbn.
  - case_decide as Hin; [by apply elem_of_nil in Hin | done].
  - rewrite IH. destruct (decide (a ∈ f <$> l)) as [Hin | Hnin].
    + rewrite decide_True; [done |]. apply elem_of_cons. by right.
    + destruct (decide (a = f i)) as [-> | Hne].
      * rewrite lookup_delete_eq, decide_True; [done |].
        apply elem_of_cons. by left.
      * rewrite lookup_delete_ne by done. rewrite decide_False; [done |].
        intros [Heq | Hin]%elem_of_cons; done.
Qed.

(** C8.  [clear()] on a backed container of [k] elements returns with
    size 0 and with the base pointer and the capacity untouched, and makes
    no system call.  For an element type with a destructor it calls the
    destructor exactly [k] times, on elements [0, 1, ..., k-1] in that
    order, after which none of them is alive and every other object is;
    for a trivially destructible type it only resets the size. *)
Theorem clear_destroys_in_order this m s :
  vars m !! this = Some s -> memory s <> 0 -> in_size_type (size s) ->
  clear this m
  = Ret tt {| log := log m ++ (if trivially_destructible then []
                               else destroy_events s (size s));
              objects := (if trivially_destructible then objects m
                          else without_elements s (size s) (objects m));
              vars := <[this := {| memory := memory s;
                                   size := 0;
                                   max_size := max_size s |}]> (vars m) |}
  /\ length (destroy_events s (size s)) = Z.to_nat (size s)
  /\ (forall i, 0 <= i < size s ->
       destroy_events s (size s) !! Z.to_nat i = Some (ev_destroy (element_addr s i))
       /\ without_elements s (size s) (objects m) !! element_addr s i = None)
  /\ (forall a, (forall i, 0 <= i < size s -> a <> element_addr s i) ->
       without_elements s (size s) (objects m) !! a = objects m !! a).
Proof.
  intros Hs Hbacked Hsize. split; [| split; [| split]].
  - rewrite (clear_run this m s Hs Hsize).
    unfold clear_events, clear_objects, cleared, clear_skips.
    destruct (Z.eqb_spec (memory s) 0) as [| _]; [done |].
    rewrite !orb_false_r. cbn. by destruct trivially_destructible.
  - unfold destroy_events. by rewrite length_fmap, length_seqZ.
  - intros i Hi. split.
    + unfold destroy_events. rewrite list_lookup_fmap, lookup_seqZ_lt by lia.
      cbn. do 3 f_equal. lia.
    + unfold without_elements.
      rewrite (foldl_delete_lookup (element_addr s)).
      case_decide as Hin; [done |]. exfalso. apply Hin.
      apply list_elem_of_fmap_2, elem_of_seqZ. lia.
  - intros a Ha. unfold without_elements.
    rewrite (foldl_delete_lookup (element_addr s)).
    case_decide as Hin; [| done]. exfalso.
    apply list_elem_of_fmap in Hin as (i & -> & Hi).
    apply elem_of_seqZ in Hi. apply (Ha i); [lia | done].
Qed.

(** *** Comparison *)

Lemma std_equal_pure n p q m r m' :
  std_equal n p q m = Ret r m' -> m' = m.
Proof.
  revert p q. induction n as [| n IH]; intros p q; cbn.
  - unfold ret. by intros [= _ <-].
  - unfold bind, deref, ret.
    destruct (objects m !! p) as [x |]; [| done].
    destruct (objects m !! q) as [y |]; [| done].
    destruct (T_eq x y); cbn; [apply IH | by intros [= _ <-]].
Qed.

Lemma std_equal_true n p q m :
  std_equal n p q m = Ret true m
  <-> forall i, 0 <= i < Z.of_nat n ->
        exists x y, objects m !! (p + i * sizeof_T) = Some x
                    /\ objects m !! (q + i * sizeof_T) = Some y
                    /\ T_eq x y = true.
Proof.
  revert p q. induction n as [| n IH]; intros p q.
  - cbn. split; [intros _ i Hi; lia | done].
  - cbn [std_equal]. unfold bind, deref, ret. split.
    + destruct (objects m !! p) as [x |] eqn:Hx; [| done].
      destruct (objects m !! q) as [y |] eqn:Hy; [| done].
      destruct (T_eq x y) eqn:Hxy; cbn; [| done].
      intros Hrest i Hi. destruct (decide (i = 0)) as [-> | Hi0].
      * exists x, y. by rewrite !Z.mul_0_l, !Z.add_0_r.
      * destruct (proj1 (IH _ _) Hrest (i - 1)) as (x' & y' & Hx' & Hy' & Heq);
          [lia |].
        exists x', y'.
        replace (p + i * sizeof_T) with (p + sizeof_T + (i - 1) * sizeof_T) by lia.
        replace (q + i * sizeof_T) with (q + sizeof_T + (i - 1) * sizeof_T) by lia.
        done.
    + intros Hall. destruct (Hall 0) as (x & y & Hx & Hy & Hxy); [lia |].
      rewrite !Z.mul_0_l, !Z.add_0_r in Hx, Hy. rewrite Hx, Hy, Hxy. cbn.
      apply IH. intros i Hi.
      destruct (Hall (i + 1)) as (x' & y' & Hx' & Hy' & Heq); [lia |].
      exists x', y'.
      replace (p + sizeof_T + i * sizeof_T) with (p + (i + 1) * sizeof_T) by lia.
      replace (q + sizeof_T + i * sizeof_T) with (q + (i + 1) * sizeof_T) by lia.
      done.
Qed.

Lemma std_equal_total n p q m :
  (forall i, 0 <= i < Z.of_nat n ->
     is_Some (objects m !! (p + i * sizeof_T))
     /\ is_Some (objects m !! (q + i * sizeof_T))) ->
  exists r, std_equal n p q m = Ret r m.
Proof.
  revert p q. induction n as [| n IH]; intros p q Hall.
  - by exists true.
  - cbn [std_equal]. unfold bind, deref, ret.
    destruct (Hall 0) as [[x Hx] [y Hy]]; [lia |].
    rewrite !Z.mul_0_l, !Z.add_0_r in Hx, Hy. rewrite Hx, Hy.
    destruct (T_eq x y); cbn; [| by exists false].
    apply IH. intros i Hi.
    replace (p + sizeof_T + i * sizeof_T) with (p + (i + 1) * sizeof_T) by lia.
    replace (q + sizeof_T + i * sizeof_T) with (q + (i + 1) * sizeof_T) by lia.
    apply Hall. lia.
Qed.

Lemma std_equal_objects n p q m1 m2 :
  objects m1 = objects m2 ->
  value_of (std_equal n p q m1) = value_of (std_equal n p q m2).
Proof.
  intros Ho. revert p q. induction n as [| n IH]; intros p q; [done |].
  cbn [std_equal]. unfold bind, deref, ret. rewrite Ho.
  destruct (objects m2 !! p) as [x |]; cbn; [| done]. rewrite Ho.
  destruct (objects m2 !! q) as [y |]; cbn; [| done].
  destruct (T_eq x y); cbn; [apply IH | done].
Qed.

Lemma operator_eq_run lhs rhs m a b :
  vars m !! lhs = Some a -> vars m !! rhs = Some b ->
  operator_eq lhs rhs m
  = if negb (size a =? size b) then Ret false m
    else std_equal (Z.to_nat (size a)) (memory a) (memory b) m.
Proof.
  intros Ha Hb. unfold operator_eq, begin_, data, get_size, bind, load, ret.
  rewrite Ha, Hb. cbn. destruct (size a =? size b); cbn; [| done].
  by rewrite Ha, Hb.
Qed.

(** C9.  [lhs == rhs] returns [true] exactly when the two sizes are equal
    and, index by index from 0, the elements of both containers are alive
    and compare equal under [T]'s [operator==]; it returns whenever all
    elements are alive, it does not change the state, its result is the
    same for any capacities of the two containers, and [lhs != rhs] is the
    negation of that result. *)
Theorem operator_eq_spec lhs rhs m a b :
  vars m !! lhs = Some a -> vars m !! rhs = Some b ->
  (operator_eq lhs rhs m = Ret true m
   <-> size a = size b
       /\ forall i, 0 <= i < size a ->
             exists x y, objects m !! element_addr a i = Some x
                         /\ objects m !! element_addr b i = Some y
                         /\ T_eq x y = true)
  /\ ((forall i, 0 <= i < size a -> is_Some (objects m !! element_addr a i)) ->
      (forall i, 0 <= i < size b -> is_Some (objects m !! element_addr b i)) ->
      exists r, operator_eq lhs rhs m = Ret r m)
  /\ (forall m2 a2 b2,
        vars m2 !! lhs = Some a2 -> vars m2 !! rhs = Some b2 ->
        objects m2 = objects m ->
        memory a2 = memory a -> size a2 = size a ->
        memory b2 = memory b -> size b2 = size b ->
        value_of (operator_eq lhs rhs m2) = value_of (operator_eq lhs rhs m))
  /\ operator_ne lhs rhs m
     = match operator_eq lhs rhs m with
       | Ret r m' => Ret (negb r) m'
       | Abort why m' => Abort why m'
       end.
Proof.
  intros Ha Hb. rewrite (operator_eq_run lhs rhs m a b Ha Hb).
  split; [| split; [| split]].
  - unfold element_addr. destruct (Z.eqb_spec (size a) (size b)) as [Heq | Hne]; cbn.
    + rewrite std_equal_true. split.
      * intros Hall. split; [done |]. intros i Hi. apply Hall. lia.
      * intros [_ Hall] i Hi. apply Hall. lia.
    + split; [done | by intros [? _]].
  - intros Hla Hlb. unfold element_addr in *.
    destruct (Z.eqb_spec (size a) (size b)) as [Heq | Hne]; cbn; [| by exists false].
    apply std_equal_total. intros i Hi. split; [apply Hla | apply Hlb]; lia.
  - intros m2 a2 b2 Ha2 Hb2 Ho Hma Hsa Hmb Hsb.
    rewrite (operator_eq_run lhs rhs m2 a2 b2 Ha2 Hb2), Hma, Hsa, Hmb, Hsb.
    destruct (size a =? size b); cbn; [| done].
    by apply std_equal_objects.
  - unfold operator_ne, bind, ret.
    by rewrite (operator_eq_run lhs rhs m a b Ha Hb).
Qed.

(** *** The storage invariant *)

Lemma guarded_alloc_outcome d g m :
  match guarded_alloc d g m with
  | Ret p m' => vars m' = vars m /\ objects m' = objects m /\ (d = 0 -> p = 0)
  | Abort why _ => exists message, why = fatal_error message
  end.
Proof.
  unfold guarded_alloc.
  destruct (Z.eqb_spec d 0) as [Hd | Hd]; [done |].
  destruct (_ || _); [done |].
  destruct (add_overflows _ _); [done |].
  unfold bind, os_guarded_alloc.
  destruct pf; run_monad;
    (destruct (k_map K _ _) as [page |]; cbn; [| done]);
    (destruct (k_protect K _ _ _); cbn; [done | eauto]).
Qed.

Lemma swap_run this other m a b :
  vars m !! this = Some a -> vars m !! other = Some b ->
  swap this other m
  = Ret tt (with_vars (<[other := a]> (<[this := b]> (vars m))) m).
Proof.
  intros Ha Hb. unfold swap, inlined_swap, bind, load, store, ret.
  destruct (decide (this = other)) as [Heq | Hne].
  - subst other. assert (a = b) as -> by congruence.
    exec. do 2 f_equal. destruct b. cbn. store_eq.
  - exec. do 2 f_equal. destruct a, b. cbn. store_eq.
Qed.

Lemma ovector_destroy_outcome this m s :
  vars m !! this = Some s -> in_size_type (size s) ->
  (exists m', ovector_destroy this m = Ret tt m' /\ vars m' = delete this (vars m))
  \/ exists message m', ovector_destroy this m = Abort (fatal_error message) m'.
Proof.
  intros Hs Hsize. unfold ovector_destroy, bind.
  rewrite (clear_run this m s Hs Hsize). unfold storage_destroy, bind.
  match goal with |- context [deallocate this ?m1] =>
    destruct (deallocate_outcome this m1 (cleared s))
      as [Hret | (message & m' & Hfatal)]
  end.
  - cbn. by rewrite lookup_insert_eq.
  - left. rewrite Hret. unfold undeclare. eexists. split; [done |].
    cbn. by rewrite delete_insert_eq.
  - right. rewrite Hfatal. eauto.
Qed.

Lemma holds_true v P m :
  holds v P m = true -> exists s, vars m !! v = Some s /\ P s = true.
Proof. unfold holds. destruct (vars m !! v) as [s |]; [eauto | done]. Qed.

Lemma is_fresh_true v m : is_fresh v m = true -> vars m !! v = None.
Proof. unfold is_fresh. by destruct (vars m !! v). Qed.

Lemma storage_wf_unbacked : storage_wf unbacked.
Proof.
  unfold storage_wf, storage_inv, in_size_type, SIZE_TYPE_MAX.
  rewrite modulus_value. cbn. lia.
Qed.

Lemma storage_wf_cleared s : storage_wf s -> storage_wf (cleared s).
Proof.
  unfold storage_wf, storage_inv, in_size_type, cleared. cbn.
  destruct (_ || _); lia.
Qed.

(** With the invariant and the ranges, only the size is left to check
    after a member function changed it. *)
Lemma storage_wf_resize s n :
  storage_wf s -> 0 <= n <= max_size s ->
  storage_wf {| memory := memory s; size := n; max_size := max_size s |}.
Proof. unfold storage_wf, storage_inv, in_size_type. cbn. lia. Qed.

(** One call under its preconditions keeps every container well formed,
    whether it returns or the element constructor throws. *)
Lemma run_preserves_wf o m :
  all_storages storage_wf m -> requires o m = true ->
  match run o m with
  | Ret _ m' => all_storages storage_wf m'
  | Abort ctor_exception m' => all_storages storage_wf m'
  | Abort _ _ => True
  end.
Proof.
  intros Hall Hpre. unfold all_storages in *.
  destruct o as [v | v n | v other | v other | v args | v | v | v n | v n
                | v other | v]; cbn [run requires] in *.
  - (* default construction *)
    cbn. apply map_Forall_insert_2; [apply storage_wf_unbacked | done].
  - (* with_max_size_or_null *)
    apply andb_prop in Hpre as [_ Hn%in_size_typeb_true].
    unfold with_max_size_or_null, ovector_sized, storage_sized, bind.
    pose proof (guarded_alloc_outcome (wrap (n * sizeof_T)) sizeof_T m) as Hout.
    destruct (guarded_alloc _ _ m) as [p m1 | why m1].
    + destruct Hout as (Hv & _ & Hnull). cbn. rewrite Hv.
      apply map_Forall_insert_2; [| done].
      unfold storage_wf, storage_inv, in_size_type in *. cbn.
      destruct (Z.eqb_spec p 0) as [-> | Hp];
        [unfold SIZE_TYPE_MAX; rewrite modulus_value; lia |].
      assert (n <> 0) by (intros ->; by apply Hp, Hnull).
      lia.
    + destruct Hout as [message ->]. done.
  - (* move construction *)
    apply andb_prop in Hpre as [Hv%is_fresh_true (s & Hs & _)%holds_true].
    assert (v <> other) by congruence.
    rewrite (ovector_move_run v other m s) by done. cbn.
    apply map_Forall_insert_2; [by apply (map_Forall_lookup_1 _ _ _ _ Hall Hs) |].
    apply map_Forall_insert_2; [apply storage_wf_unbacked | done].
  - (* move assignment *)
    apply andb_prop in Hpre as [(d & Hd & _)%holds_true (s & Hs & _)%holds_true].
    pose proof (map_Forall_lookup_1 _ _ _ _ Hall Hd) as Hwd.
    pose proof (map_Forall_lookup_1 _ _ _ _ Hall Hs) as Hws.
    destruct (ovector_move_assign_outcome v other m d s Hd Hs)
      as [(m' & -> & ->) | (message & m' & ->)]; [apply Hwd | | done].
    case_decide.
    + apply map_Forall_insert_2; [by apply storage_wf_cleared | done].
    + apply map_Forall_insert_2; [done |].
      apply map_Forall_insert_2; [apply storage_wf_unbacked | done].
  - (* emplace_back *)
    apply holds_true in Hpre as (s & Hs & [_ Hroom%Z.ltb_lt]%andb_prop).
    pose proof (map_Forall_lookup_1 _ _ _ _ Hall Hs) as Hws.
    unfold emplace_back, uninitialized_grow_back_by, placement_new.
    unfold bind, load, store, ret. exec.
    destruct (construct args) as [x |]; [| done]. exec.
    apply map_Forall_insert_2; [| done].
    assert (Hlt : size s < max_size s).
    { destruct Hws as ([_ Hle] & Hsz & Hmx).
      rewrite wrap_small in Hroom by (unfold in_size_type in *; lia). lia. }
    rewrite wrap_small by (unfold storage_wf, in_size_type in *; lia).
    apply (storage_wf_resize s); [done |]. unfold storage_wf, in_size_type in *. lia.
  - (* pop_back *)
    apply holds_true in Hpre as (s & Hs & Hne%negb_true_iff%Z.eqb_neq).
    pose proof (map_Forall_lookup_1 _ _ _ _ Hall Hs) as Hws.
    unfold pop_back, uninitialized_shrink_back_by, destroy.
    unfold bind, load, store, ret. exec.
    apply map_Forall_insert_2; [| done].
    rewrite wrap_small by (unfold storage_wf, in_size_type in *; lia).
    apply (storage_wf_resize s); [done |].
    unfold storage_wf, storage_inv, in_size_type in *. lia.
  - (* clear *)
    apply holds_true in Hpre as (s & Hs & _).
    pose proof (map_Forall_lookup_1 _ _ _ _ Hall Hs) as Hws.
    rewrite (clear_run v m s Hs) by apply Hws. cbn.
    apply map_Forall_insert_2; [by apply storage_wf_cleared | done].
  - (* uninitialized_grow_back_by *)
    apply andb_prop in Hpre as [_ (s & Hs & Hfit%Z.leb_le)%holds_true].
    pose proof (map_Forall_lookup_1 _ _ _ _ Hall Hs) as Hws.
    unfold uninitialized_grow_back_by, bind, load, store. exec.
    apply map_Forall_insert_2; [| done].
    apply (storage_wf_resize s); [done |].
    pose proof (wrap_range (size s + n)). unfold in_size_type in *. lia.
  - (* uninitialized_shrink_back_by *)
    apply andb_prop in Hpre as [Hn%in_size_typeb_true (s & Hs & Hle%Z.leb_le)%holds_true].
    pose proof (map_Forall_lookup_1 _ _ _ _ Hall Hs) as Hws.
    unfold uninitialized_shrink_back_by, bind, load, store, ret. exec.
    apply map_Forall_insert_2; [| done].
    rewrite wrap_small by (unfold storage_wf, in_size_type in *; lia).
    apply (storage_wf_resize s); [done |].
    unfold storage_wf, storage_inv, in_size_type in *. lia.
  - (* swap *)
    apply andb_prop in Hpre as [(a & Ha & _)%holds_true (b & Hb & _)%holds_true].
    rewrite (swap_run v other m a b Ha Hb). cbn.
    apply map_Forall_insert_2; [by apply (map_Forall_lookup_1 _ _ _ _ Hall Ha) |].
    apply map_Forall_insert_2; [by apply (map_Forall_lookup_1 _ _ _ _ Hall Hb) | done].
  - (* destruction *)
    apply holds_true in Hpre as (s & Hs & _).
    pose proof (map_Forall_lookup_1 _ _ _ _ Hall Hs) as Hws.
    destruct (ovector_destroy_outcome v m s Hs)
      as [(m' & -> & ->) | (message & m' & ->)]; [apply Hws | | done].
    by apply map_Forall_delete.
Qed.

Lemma reachable_wf m : reachable m -> all_storages storage_wf m.
Proof.
  induction 1 as [| o m m' _ IH Hpre Hrun | o m m' _ IH Hpre Hrun].
  - apply map_Forall_empty.
  - pose proof (run_preserves_wf o m IH Hpre) as Hstep. by rewrite Hrun in Hstep.
  - pose proof (run_preserves_wf o m IH Hpre) as Hstep. by rewrite Hrun in Hstep.
Qed.

(** C6.  In every state a program reaches through the public interface
    (default construction, [with_max_size_or_null], move construction and
    assignment, [emplace_back], [pop_back], [clear], the two
    [uninitialized_*] functions, [swap] and destruction, each called under
    its documented precondition), every container has
    [max_size == 0] exactly when its base pointer is null, and
    [size <= max_size]. *)
Theorem reachable_storage_invariant m v s :
  reachable m -> vars m !! v = Some s ->
  (max_size s = 0 <-> memory s = 0) /\ size s <= max_size s.
Proof.
  intros Hreach Hs.
  by destruct (map_Forall_lookup_1 _ _ _ _ (reachable_wf m Hreach) Hs) as [Hinv _].
Qed.


(** ** Further properties *)

(** *** The allocator's arithmetic *)

(** X1.  As long as [size + n - 1] fits [size_type],
    [ceil_multiple(size, n)] is the least multiple of [n] at or above
    [size]; in particular it leaves multiples of [n] unchanged. *)
Theorem ceil_multiple_rounds_up sz n :
  0 < n -> 0 <= sz -> sz + n - 1 <= SIZE_TYPE_MAX ->
  ceil_multiple sz n mod n = 0
  /\ sz <= ceil_multiple sz n < sz + n
  /\ (forall k, sz <= k -> k mod n = 0 -> ceil_multiple sz n <= k)
  /\ (sz mod n = 0 -> ceil_multiple sz n = sz).
Proof.
  intros Hn Hsz Hfit. unfold ceil_multiple.
  pose proof (Z.div_mod sz n ltac:(lia)) as Hdm.
  pose proof (Z.mod_pos_bound sz n Hn) as Hr.
  set (q := sz / n) in *. set (r := sz mod n) in *.
  assert (Hq : 0 <= q) by nia.
  assert (Hc : wrap (wrap (q + (if r =? 0 then 0 else 1)) * n)
               = (q + (if r =? 0 then 0 else 1)) * n).
  { destruct (Z.eqb_spec r 0) as [Hr0 | Hr0].
    - rewrite Z.add_0_r, (wrap_small q), (wrap_small (q * n));
        [done | |]; unfold in_size_type in *; nia.
    - rewrite (wrap_small (q + 1)), (wrap_small ((q + 1) * n));
        [done | |]; unfold in_size_type in *; nia. }
  rewrite Hc. clear Hc.
  split; [by apply Z.mod_mul; lia |].
  split; [destruct (Z.eqb_spec r 0); nia |].
  split.
  - intros k Hk Hkn. apply Z.mod_divide in Hkn; [| lia]. destruct Hkn as [j ->].
    destruct (Z.eqb_spec r 0) as [Hr0 | Hr0].
    + nia.
    + assert (q < j) by nia. nia.
  - intros Hr0. destruct (Z.eqb_spec r 0); [nia | done].
Qed.

(** X2.  Past the limit [SIZE_TYPE_MAX - PAGE_SIZE + 1] that [guarded_alloc]
    tests for, rounding up to a page wraps around: [ceil_multiple] returns
    0 for every such size. *)
Theorem ceil_multiple_wraps_past_limit d :
  SIZE_TYPE_MAX - PAGE_SIZE + 1 < d -> d <= SIZE_TYPE_MAX ->
  ceil_multiple d PAGE_SIZE = 0.
Proof.
  unfold ceil_multiple, SIZE_TYPE_MAX, PAGE_SIZE. rewrite modulus_value.
  intros Hlow Hhigh.
  assert (Hq : d / 4096 = 4503599627370495).
  { symmetry. apply (Z.div_unique d 4096 _ (d - 18446744073709547520)); lia. }
  assert (Hr : d mod 4096 <> 0).
  { rewrite Z.mod_eq, Hq by lia. lia. }
  rewrite Hq. destruct (Z.eqb_spec (d mod 4096) 0) as [| _]; [done |].
  reflexivity.
Qed.

(** X3.  On values of [size_type], [add_overflows(a, b)] is false exactly
    when the sum computed in [size_type] is the true sum, and the order of
    the arguments does not matter. *)
Theorem add_overflows_exact a b :
  in_size_type a -> in_size_type b ->
  (add_overflows a b = false <-> wrap (a + b) = a + b)
  /\ add_overflows a b = add_overflows b a.
Proof.
  intros Ha Hb.
  pose proof (add_overflows_spec a b Ha Hb) as Hab.
  pose proof (add_overflows_spec b a Hb Ha) as Hba.
  split.
  - split.
    + intros Hno. apply wrap_small. unfold in_size_type in *.
      destruct (Z.le_gt_cases (a + b) SIZE_TYPE_MAX) as [| Hgt]; [lia |].
      apply Hab in Hgt. congruence.
    + intros Hsum. destruct (add_overflows a b); [| done].
      pose proof (wrap_range (a + b)) as Hrange.
      pose proof (proj1 Hab eq_refl). unfold in_size_type in *. lia.
  - destruct (add_overflows a b), (add_overflows b a); try done.
    + pose proof (proj1 Hab eq_refl).
      assert (H3 : SIZE_TYPE_MAX < b + a) by lia. by apply Hba in H3.
    + pose proof (proj1 Hba eq_refl).
      assert (H3 : SIZE_TYPE_MAX < a + b) by lia. by apply Hab in H3.
Qed.

(** *** The allocator's outcomes *)

Lemma page_ceiling_bounds z :
  0 <= z ->
  z <= page_ceiling z < z + PAGE_SIZE /\ page_ceiling z mod PAGE_SIZE = 0.
Proof.
  intros Hz. unfold page_ceiling, PAGE_SIZE.
  pose proof (Z.div_mod (z + 4096 - 1) 4096 ltac:(lia)) as Hdm.
  pose proof (Z.mod_pos_bound (z + 4096 - 1) 4096 ltac:(lia)) as Hr.
  split; [lia |]. rewrite Z.mul_comm. apply Z.mod_mul. lia.
Qed.

(** The rounded size is a page multiple even when the rounding wrapped. *)
Lemma ceil_multiple_page_aligned d :
  ceil_multiple d PAGE_SIZE mod PAGE_SIZE = 0.
Proof.
  unfold ceil_multiple, PAGE_SIZE. generalize (wrap (d / 4096 + (if d mod 4096 =? 0 then 0 else 1))).
  intros y. unfold wrap. rewrite modulus_value.
  rewrite (Z.mod_eq (y * 4096) 18446744073709551616) by lia.
  replace (y * 4096 - 18446744073709551616 * (y * 4096 / 18446744073709551616))
    with ((y - 4503599627370496 * (y * 4096 / 18446744073709551616)) * 4096) by lia.
  apply Z.mod_mul. lia.
Qed.

(** X4.  [guarded_alloc] returns null without any system call when no byte
    is requested, and when the two page-rounded sizes, or their sum, do not
    fit [size_type]. *)
Theorem guarded_alloc_null_without_syscall d g m :
  in_size_type d -> in_size_type g ->
  d = 0 \/ SIZE_TYPE_MAX < page_ceiling d + page_ceiling g ->
  guarded_alloc d g m = Ret 0 m.
Proof.
  intros Hd Hg [-> | Hov].
  - reflexivity.
  - by apply guarded_alloc_rounding_overflow.
Qed.

(** X5.  For a request that is not empty and whose rounded sizes fit,
    [guarded_alloc] asks the kernel for exactly the two rounded sizes
    together.  If the kernel refuses, it returns null after that one call and
    never attempts the guard.  If the kernel grants the mapping but refuses
    the second call (the guard on POSIX, the commit on Windows), the process
    stops in [fatal_error] and the mapping is not given back.  Otherwise it
    returns the base plus the rounding slack. *)
Theorem guarded_alloc_outcomes d g m :
  in_size_type d -> in_size_type g -> d <> 0 ->
  page_ceiling d + page_ceiling g <= SIZE_TYPE_MAX ->
  let cd := page_ceiling d in
  let cg := page_ceiling g in
  guarded_alloc d g m
  = match k_map K (log m) (cd + cg) with
    | None => Ret 0 (emit (map_event (cd + cg)) m)
    | Some page =>
        let base := PAGE_SIZE * Z.pos page in
        let m' := {| log := log m ++ reserve_events base cd cg;
                     objects := objects m; vars := vars m |} in
        if protect_accepted (log m ++ [map_event (cd + cg)]) base cd cg
        then Ret (base + (cd - d)) m'
        else Abort (fatal_error protect_failure) m'
    end.
Proof.
  intros Hd Hg Hd0 Hfit cd cg.
  destruct (page_ceiling_bounds d) as [Hcd Hcdm]; [apply Hd |].
  destruct (page_ceiling_bounds g) as [Hcg Hcgm]; [apply Hg |].
  fold cd in Hcd, Hcdm, Hfit. fold cg in Hcg, Hcgm, Hfit.
  assert (Hcdmax : cd <= SIZE_TYPE_MAX - PAGE_SIZE + 1 /\ cg <= SIZE_TYPE_MAX - PAGE_SIZE + 1).
  { apply Z.mod_divide in Hcdm, Hcgm; [| by unfold PAGE_SIZE ..].
    destruct Hcdm as [i Hi], Hcgm as [j Hj].
    unfold in_size_type, SIZE_TYPE_MAX, PAGE_SIZE in *. rewrite modulus_value in *. lia. }
  unfold guarded_alloc.
  destruct (Z.eqb_spec d 0) as [| _]; [done |].
  rewrite rounding_limit.
  destruct (Z.ltb_spec (SIZE_TYPE_MAX - PAGE_SIZE + 1) d) as [Hbig | _];
    [unfold in_size_type in *; lia |].
  destruct (Z.ltb_spec (SIZE_TYPE_MAX - PAGE_SIZE + 1) g) as [Hbig | _];
    [unfold in_size_type in *; lia |].
  cbn [orb].
  rewrite !ceil_multiple_page_ceiling by (unfold in_size_type in *; lia).
  fold cd cg.
  assert (Hcdr : in_size_type cd) by (unfold in_size_type in *; lia).
  assert (Hcgr : in_size_type cg) by (unfold in_size_type in *; lia).
  destruct (add_overflows cd cg) eqn:Hov.
  { apply (add_overflows_spec cd cg Hcdr Hcgr) in Hov. lia. }
  unfold bind, os_guarded_alloc, map_event, protect_accepted, protect_failure,
    reserve_events.
  rewrite (wrap_small (cd + cg)), (wrap_small (cd - d))
    by (unfold in_size_type in *; lia).
  destruct pf; run_monad;
    (destruct (k_map K (log m) (cd + cg)) as [page |]; cbn; [| done]);
    (destruct (k_protect K _ _ _); cbn; unfold emit; cbn;
     rewrite <- app_assoc; done).
Qed.

(** X6.  The pointer a successful [guarded_alloc] returns ends its
    [data_size] bytes on a page boundary, and it is aligned to every unit
    that divides both the page size and [data_size]. *)
Theorem guarded_alloc_alignment d g m p m' :
  in_size_type d -> in_size_type g ->
  guarded_alloc d g m = Ret p m' -> p <> 0 ->
  (p + d) mod PAGE_SIZE = 0
  /\ forall a, 0 < a -> PAGE_SIZE mod a = 0 -> d mod a = 0 -> p mod a = 0.
Proof.
  intros Hd Hg Hrun Hp.
  destruct (guarded_alloc_success d g m p m' Hd Hg Hrun Hp)
    as (Hpos & Hcd & Hsum & Hcg & base & Hos & Hbase & ->).
  destruct (os_guarded_alloc_success (ceil_multiple d PAGE_SIZE)
              (ceil_multiple g PAGE_SIZE) m base m') as [(page & _ & ->) _];
    try done; [lia |].
  pose proof (ceil_multiple_page_aligned d) as Hal.
  apply Z.mod_divide in Hal; [| by unfold PAGE_SIZE].
  assert (Hend : (PAGE_SIZE | PAGE_SIZE * Z.pos page + ceil_multiple d PAGE_SIZE)).
  { apply Z.divide_add_r; [apply Z.divide_factor_l | done]. }
  split.
  - apply Z.mod_divide; [by unfold PAGE_SIZE |].
    by replace (PAGE_SIZE * Z.pos page + (ceil_multiple d PAGE_SIZE - d) + d)
      with (PAGE_SIZE * Z.pos page + ceil_multiple d PAGE_SIZE) by lia.
  - intros a Ha Hpage Hda.
    apply Z.mod_divide in Hpage, Hda; [| lia ..].
    apply Z.mod_divide; [lia |].
    replace (PAGE_SIZE * Z.pos page + (ceil_multiple d PAGE_SIZE - d))
      with (PAGE_SIZE * Z.pos page + ceil_multiple d PAGE_SIZE - d) by lia.
    apply Z.divide_sub_r; [| done]. by apply (Z.divide_trans _ PAGE_SIZE).
Qed.

(** *** Creation and destruction *)

Lemma with_max_size_or_null_inv v n m m1 :
  with_max_size_or_null v n m = Ret tt m1 ->
  exists p,
    (p <> 0 -> exists m0, guarded_alloc (wrap (n * sizeof_T)) sizeof_T m = Ret p m0
                         /\ log m1 = log m0)
    /\ objects m1 = objects m
    /\ vars m1 = <[v := {| memory := p; size := 0;
                           max_size := if p =? 0 then 0 else n |}]> (vars m).
Proof.
  unfold with_max_size_or_null, ovector_sized, storage_sized, bind. intros Hrun.
  pose proof (guarded_alloc_outcome (wrap (n * sizeof_T)) sizeof_T m) as Hout.
  destruct (guarded_alloc _ _ m) as [p m0 | why m0]; [| done].
  destruct Hout as (Hv & Ho & _). unfold declare in Hrun. injection Hrun as <-.
  exists p. cbn. rewrite Hv, Ho. repeat split. intros _. by exists m0.
Qed.

Lemma clear_events_cleared s : clear_events (cleared s) = [].
Proof.
  unfold clear_events, clear_skips, cleared. cbn.
  destruct trivially_destructible; [done |]. cbn.
  by destruct (memory s =? 0).
Qed.

Lemma clear_objects_cleared s o : clear_objects (cleared s) o = o.
Proof.
  unfold clear_objects, clear_skips, cleared. cbn.
  destruct trivially_destructible; [done |]. cbn.
  by destruct (memory s =? 0).
Qed.

(** The destructor, when the kernel accepts the release. *)
Lemma ovector_destroy_run this m s :
  vars m !! this = Some s -> in_size_type (size s) ->
  (memory s <> 0 ->
   release_accepted (log m ++ clear_events s)
                    (reservation_base s) (reservation_len s) = true) ->
  ovector_destroy this m
  = Ret tt {| log := log m ++ clear_events s ++ deallocate_events s;
              objects := clear_objects s (objects m);
              vars := delete this (vars m) |}.
Proof.
  intros Hs Hsize Hacc. unfold ovector_destroy, bind.
  rewrite (clear_run this m s Hs Hsize). unfold storage_destroy, bind.
  rewrite (deallocate_run this _ (cleared s)).
  - unfold undeclare. cbn. by rewrite delete_insert_eq, <- app_assoc.
  - cbn. by rewrite lookup_insert_eq.
  - exact Hacc.
Qed.

(** X7.  In a container made by [with_max_size_or_null(n)] whose byte size
    [n * sizeof(T)] fits [size_type], every slot below the capacity lies
    inside the usable part of the reservation, and the slot one past the
    capacity starts exactly where the guard starts: an [emplace_back] beyond
    the capacity writes its first byte into guarded memory. *)
Theorem capacity_ends_at_guard v n m m1 s :
  in_size_type n -> in_size_type sizeof_T -> n * sizeof_T <= SIZE_TYPE_MAX ->
  with_max_size_or_null v n m = Ret tt m1 ->
  vars m1 !! v = Some s -> memory s <> 0 ->
  let cd := ceil_multiple (n * sizeof_T) PAGE_SIZE in
  let cg := ceil_multiple sizeof_T PAGE_SIZE in
  exists base,
    log m1 = log m ++ reserve_events base cd cg
    /\ max_size s = n
    /\ element_addr s (max_size s) = base + cd
    /\ forall i, 0 <= i < max_size s ->
         base <= element_addr s i /\ element_addr s i + sizeof_T <= base + cd.
Proof.
  intros Hn Hsz Hfit Hrun Hs Hbacked cd cg.
  assert (Hd : in_size_type (n * sizeof_T)) by (unfold in_size_type in *; nia).
  assert (Hw : wrap (n * sizeof_T) = n * sizeof_T) by (by apply wrap_small).
  destruct (with_max_size_or_null_reservation v n m m1 s Hsz Hrun Hs Hbacked)
    as (base & Hlog & Hmax & Hbase & _).
  rewrite Hw in Hlog. fold cd cg in Hlog.
  unfold reservation_base, data_bytes in Hbase. rewrite Hmax, Hw in Hbase. fold cd in Hbase.
  destruct (with_max_size_or_null_inv v n m m1 Hrun) as (p & Halloc & _ & Hvars).
  rewrite Hvars, lookup_insert_eq in Hs. injection Hs as <-. cbn in *.
  destruct (Halloc Hbacked) as (m0 & Hrun0 & _).
  rewrite Hw in Hrun0.
  destruct (guarded_alloc_success (n * sizeof_T) sizeof_T m p m0 Hd
              Hsz Hrun0 Hbacked) as (Hpos & Hcd & _).
  fold cd in Hcd.
  rewrite (wrap_small (cd - n * sizeof_T)) in Hbase
    by (unfold in_size_type, SIZE_TYPE_MAX, PAGE_SIZE in *;
        rewrite modulus_value in *; lia).
  exists base. unfold element_addr. cbn. rewrite Hmax.
  split; [done |]. split; [done |]. split; [lia |].
  intros i Hi. unfold in_size_type in *. nia.
Qed.

(** X8.  Creating a container and destroying it right away gives back
    exactly what was reserved: the release names the base the kernel granted
    and the length that was asked for, and nothing else happened in
    between. *)
Theorem create_destroy_balanced v n m m1 s :
  in_size_type sizeof_T ->
  with_max_size_or_null v n m = Ret tt m1 ->
  vars m1 !! v = Some s -> memory s <> 0 ->
  let cd := ceil_multiple (wrap (n * sizeof_T)) PAGE_SIZE in
  let cg := ceil_multiple sizeof_T PAGE_SIZE in
  exists base,
    log m1 = log m ++ reserve_events base cd cg
    /\ (release_accepted (log m1) base (cd + cg) = true ->
        ovector_destroy v m1
        = Ret tt {| log := log m ++ reserve_events base cd cg
                                 ++ [release_event base (cd + cg)];
                    objects := objects m;
                    vars := delete v (vars m) |}).
Proof.
  intros Hsz Hrun Hs Hbacked cd cg.
  destruct (with_max_size_or_null_reservation v n m m1 s Hsz Hrun Hs Hbacked)
    as (base & Hlog & _ & Hbase & Hlen).
  fold cd cg in Hlog, Hlen.
  destruct (with_max_size_or_null_inv v n m m1 Hrun) as (p & _ & Hobj & Hvars).
  assert (Hsize : size s = 0).
  { rewrite Hvars, lookup_insert_eq in Hs. by injection Hs as <-. }
  assert (Hev : clear_events s = []).
  { unfold clear_events, destroy_events. rewrite Hsize. by destruct (clear_skips s). }
  assert (Hob : clear_objects s (objects m1) = objects m1).
  { unfold clear_objects, without_elements. rewrite Hsize. by destruct (clear_skips s). }
  exists base. split; [done |]. intros Hacc.
  rewrite (ovector_destroy_run v m1 s Hs).
  - rewrite Hev, Hob, Hobj, Hvars, Hlog, delete_insert_eq. cbn.
    unfold deallocate_events. destruct (Z.eqb_spec (memory s) 0) as [| _]; [done |].
    by rewrite Hbase, Hlen, <- app_assoc.
  - rewrite Hsize. unfold in_size_type, SIZE_TYPE_MAX. rewrite modulus_value. lia.
  - intros _. by rewrite Hev, app_nil_r, Hbase, Hlen.
Qed.

(** X9.  The destructor of an unbacked container makes no destructor call
    and no system call.  The destructor of a backed container calls the
    element destructor on elements [0 .. size-1] in order (not at all for a
    trivially destructible type) and then releases the reservation once. *)
Theorem ovector_destroy_spec this m s :
  vars m !! this = Some s -> in_size_type (size s) ->
  (memory s = 0 ->
   ovector_destroy this m = Ret tt (with_vars (delete this (vars m)) m))
  /\ (memory s <> 0 ->
      release_accepted (log m ++ clear_events s)
                       (reservation_base s) (reservation_len s) = true ->
      ovector_destroy this m
      = Ret tt {| log := log m
                         ++ (if trivially_destructible then []
                             else destroy_events s (size s))
                         ++ [release_event (reservation_base s) (reservation_len s)];
                  objects := (if trivially_destructible then objects m
                              else without_elements s (size s) (objects m));
                  vars := delete this (vars m) |}).
Proof.
  intros Hs Hsize. split.
  - intros Hnull. rewrite (ovector_destroy_run this m s Hs Hsize) by done.
    unfold clear_events, clear_objects, clear_skips, deallocate_events.
    rewrite Hnull. cbn. rewrite orb_true_r. cbn. by rewrite app_nil_r.
  - intros Hbacked Hacc. rewrite (ovector_destroy_run this m s Hs Hsize) by done.
    unfold clear_events, clear_objects, clear_skips, deallocate_events.
    destruct (Z.eqb_spec (memory s) 0) as [| _]; [done |].
    by rewrite orb_false_r.
Qed.

(** X10.  Destroying a container after it was moved from does nothing: a
    move construction followed by the destructor of the source amounts to
    renaming the container, with no destructor call and no system call. *)
Theorem move_then_destroy_source this other m s :
  this <> other -> vars m !! other = Some s ->
  bind (ovector_move this other) (fun _ => ovector_destroy other) m
  = Ret tt (with_vars (<[this := s]> (delete other (vars m))) m).
Proof.
  intros Hne Hs. unfold bind at 1.
  rewrite (ovector_move_run this other m s Hne Hs).
  rewrite (ovector_destroy_run other _ unbacked).
  - unfold clear_events, clear_objects, clear_skips, deallocate_events, with_vars.
    cbn. rewrite orb_true_r. cbn. rewrite app_nil_r. do 2 f_equal.
    apply map_eq. intros k.
    destruct (decide (k = other)) as [-> | Hk].
    + by rewrite lookup_delete_eq, lookup_insert_ne, lookup_delete_eq.
    + rewrite lookup_delete_ne by done.
      destruct (decide (k = this)) as [-> | Hk'].
      * by rewrite !lookup_insert_eq.
      * by rewrite !lookup_insert_ne, lookup_delete_ne.
  - cbn. rewrite lookup_insert_ne by done. by rewrite lookup_insert_eq.
  - unfold in_size_type, SIZE_TYPE_MAX. rewrite modulus_value. cbn. lia.
  - done.
Qed.

(** X11.  Move-assigning a container to itself and then destroying it does
    what destroying it alone does: every element is destroyed once and the
    reservation is released exactly once, by the destructor.  The
    self-assignment has released nothing. *)
Theorem self_move_assign_then_destroy x m s :
  vars m !! x = Some s -> in_size_type (size s) ->
  (memory s <> 0 ->
   release_accepted (log m ++ clear_events s)
                    (reservation_base s) (reservation_len s) = true) ->
  bind (ovector_move_assign x x) (fun _ => ovector_destroy x) m
  = Ret tt {| log := log m ++ clear_events s ++ deallocate_events s;
              objects := clear_objects s (objects m);
              vars := delete x (vars m) |}
  /\ ovector_destroy x m
     = Ret tt {| log := log m ++ clear_events s ++ deallocate_events s;
                 objects := clear_objects s (objects m);
                 vars := delete x (vars m) |}.
Proof.
  intros Hs Hsize Hacc. split; [| by apply ovector_destroy_run].
  unfold bind at 1.
  rewrite (ovector_move_assign_run x x m s s Hs Hs Hsize) by done.
  rewrite !decide_True by done.
  rewrite (ovector_destroy_run x _ (cleared s)).
  - cbn. rewrite clear_events_cleared, clear_objects_cleared, delete_insert_eq.
    change (deallocate_events (cleared s)) with (deallocate_events s).
    cbn. by rewrite app_nil_r, <- !app_assoc.
  - cbn. by rewrite lookup_insert_eq.
  - unfold cleared. cbn. destruct (_ || _); [| done].
    unfold in_size_type, SIZE_TYPE_MAX. rewrite modulus_value. lia.
  - cbn. rewrite clear_events_cleared, !app_nil_r. exact Hacc.
Qed.

(** *** Element operations *)

Lemma emplace_back_run this args m s x :
  vars m !! this = Some s -> construct args = Some x ->
  emplace_back this args m
  = Ret (element_addr s (size s))
        {| log := log m ++ [ev_construct (element_addr s (size s))];
           objects := <[element_addr s (size s) := x]> (objects m);
           vars := <[this := {| memory := memory s;
                                size := wrap (size s + 1);
                                max_size := max_size s |}]> (vars m) |}.
Proof.
  intros Hs Hx. unfold emplace_back, uninitialized_grow_back_by, placement_new.
  unfold bind, load, store, ret. exec. fold (element_addr s (size s)).
  rewrite Hx. by exec.
Qed.

Lemma emplace_back_throw this args m s :
  vars m !! this = Some s -> construct args = None ->
  emplace_back this args m = Abort ctor_exception m.
Proof.
  intros Hs Hx. unfold emplace_back, placement_new, bind, load. exec.
  by rewrite Hx.
Qed.

Lemma pop_back_run this m s :
  vars m !! this = Some s ->
  pop_back this m
  = Ret tt {| log := log m ++ [ev_destroy (element_addr s (wrap (size s - 1)))];
              objects := delete (element_addr s (wrap (size s - 1))) (objects m);
              vars := <[this := {| memory := memory s;
                                   size := wrap (size s - 1);
                                   max_size := max_size s |}]> (vars m) |}.
Proof.
  intros Hs. unfold pop_back, uninitialized_shrink_back_by, destroy.
  unfold bind, load, store, ret. by exec.
Qed.

Lemma uninitialized_grow_back_by_run this n m s :
  vars m !! this = Some s ->
  uninitialized_grow_back_by this n m
  = Ret tt (with_vars (<[this := {| memory := memory s;
                                    size := wrap (size s + n);
                                    max_size := max_size s |}]> (vars m)) m).
Proof. intros Hs. unfold uninitialized_grow_back_by, bind, load, store. by exec. Qed.

Lemma uninitialized_shrink_back_by_run this n m s :
  vars m !! this = Some s ->
  uninitialized_shrink_back_by this n m
  = Ret (element_addr s (wrap (size s - n)))
        (with_vars (<[this := {| memory := memory s;
                                 size := wrap (size s - n);
                                 max_size := max_size s |}]> (vars m)) m).
Proof.
  intros Hs. unfold uninitialized_shrink_back_by, bind, load, store, ret. by exec.
Qed.

(** Different slots of one container have different addresses. *)
Lemma element_addr_inj s i j :
  sizeof_T <> 0 -> element_addr s i = element_addr s j -> i = j.
Proof.
  unfold element_addr. intros Hsz Heq.
  apply (Z.mul_cancel_r i j sizeof_T Hsz). lia.
Qed.

(** X12.  [emplace_back], [pop_back], [clear] and the two
    [uninitialized_*] functions never call the operating system and never
    change the base pointer or the capacity of their container, whatever
    their arguments and whether or not the element constructor throws; only
    the size can change, and no other container is touched. *)
Theorem element_operations_keep_reservation o v m s m' :
  element_operation o = Some v ->
  vars m !! v = Some s -> in_size_type (size s) ->
  run o m = Ret tt m' \/ run o m = Abort ctor_exception m' ->
  syscalls (log m') = syscalls (log m)
  /\ exists sz,
       vars m' = <[v := {| memory := memory s; size := sz;
                           max_size := max_size s |}]> (vars m).
Proof.
  intros Hop Hs Hsize Hrun.
  destruct o as [| | | | w args | w | w | w n | w n | |]; try done;
    injection Hop as ->; cbn [run] in Hrun.
  - unfold bind in Hrun. destruct (construct args) as [x |] eqn:Hx.
    + rewrite (emplace_back_run v args m s x Hs Hx) in Hrun.
      destruct Hrun as [[= <-] | [=]]. cbn.
      rewrite syscalls_app. cbn. rewrite app_nil_r. eauto.
    + rewrite (emplace_back_throw v args m s Hs Hx) in Hrun.
      destruct Hrun as [[=] | [= <-]]. split; [done |].
      exists (size s). rewrite insert_id; [done |]. rewrite Hs. by destruct s.
  - rewrite (pop_back_run v m s Hs) in Hrun.
    destruct Hrun as [[= <-] | [=]]. cbn.
    rewrite syscalls_app. cbn. rewrite app_nil_r. eauto.
  - rewrite (clear_run v m s Hs Hsize) in Hrun.
    destruct Hrun as [[= <-] | [=]]. cbn.
    rewrite syscalls_app, syscalls_clear_events, app_nil_r. unfold cleared. eauto.
  - rewrite (uninitialized_grow_back_by_run v n m s Hs) in Hrun.
    destruct Hrun as [[= <-] | [=]]. cbn. eauto.
  - unfold bind in Hrun.
    rewrite (uninitialized_shrink_back_by_run v n m s Hs) in Hrun.
    destruct Hrun as [[= <-] | [=]]. cbn. eauto.
Qed.

Lemma seqZ_one a : seqZ a 1 = [a].
Proof. unfold seqZ. cbn. f_equal; lia. Qed.

Lemma contents_emplace l w m s x :
  sizeof_T <> 0 -> 0 <= size s ->
  contents {| log := l;
              objects := <[element_addr s (size s) := x]> (objects m);
              vars := w |}
           {| memory := memory s; size := size s + 1; max_size := max_size s |}
  = contents m s ++ [Some x].
Proof.
  intros Hsz Hsize. unfold contents. cbn.
  rewrite (seqZ_app 0 (size s) 1), fmap_app by lia. f_equal.
  - apply list_fmap_ext. intros i j [-> Hi]%lookup_seqZ.
    change (element_addr {| memory := memory s; size := size s + 1;
                            max_size := max_size s |} (0 + Z.of_nat i))
      with (element_addr s (0 + Z.of_nat i)).
    apply lookup_insert_ne. intros Heq%(element_addr_inj _ _ _ Hsz). lia.
  - rewrite seqZ_one. cbn. f_equal.
    change (element_addr {| memory := memory s; size := size s + 1;
                            max_size := max_size s |} (size s))
      with (element_addr s (size s)).
    apply lookup_insert_eq.
Qed.

(** X13.  Appending elements one after the other, each within the capacity
    and each constructed successfully, leaves the elements that were there
    in place and adds the new ones behind them in the order of the calls;
    the size grows by their number, and no system call is made. *)
Theorem emplace_back_each_appends this l xs m s :
  vars m !! this = Some s ->
  in_size_type (size s) -> in_size_type (max_size s) -> sizeof_T <> 0 ->
  size s + Z.of_nat (length l) <= max_size s ->
  Forall2 (fun args x => construct args = Some x) l xs ->
  exists m',
    emplace_back_each this l m = Ret tt m'
    /\ vars m' = <[this := {| memory := memory s;
                              size := size s + Z.of_nat (length l);
                              max_size := max_size s |}]> (vars m)
    /\ contents m' {| memory := memory s;
                      size := size s + Z.of_nat (length l);
                      max_size := max_size s |}
       = contents m s ++ (Some <$> xs)
    /\ syscalls (log m') = syscalls (log m).
Proof.
  intros Hs Hsize Hmax Hsz Hroom Hall. revert m s Hs Hsize Hmax Hroom.
  induction Hall as [| args x l xs Hx _ IH]; intros m s Hs Hsize Hmax Hroom.
  - exists m. cbn. rewrite Z.add_0_r, app_nil_r.
    assert (Heta : {| memory := memory s; size := size s; max_size := max_size s |} = s)
      by (by destruct s).
    rewrite Heta, insert_id by done. done.
  - cbn [emplace_back_each length] in *. unfold bind.
    rewrite (emplace_back_run this args m s x Hs Hx).
    rewrite wrap_small by (unfold in_size_type in *; lia).
    edestruct (IH {| log := log m ++ [ev_construct (element_addr s (size s))];
                    objects := <[element_addr s (size s) := x]> (objects m);
                    vars := <[this := {| memory := memory s; size := size s + 1;
                                         max_size := max_size s |}]> (vars m) |}
                 {| memory := memory s; size := size s + 1; max_size := max_size s |})
      as (m' & Hrun & Hvars & Hcont & Hsys).
    + cbn. by rewrite lookup_insert_eq.
    + cbn. unfold in_size_type in *. lia.
    + done.
    + cbn. lia.
    + cbn in Hvars, Hcont, Hsys.
      replace (size s + 1 + Z.of_nat (length l))
        with (size s + Z.of_nat (S (length l))) in Hvars, Hcont by lia.
      exists m'. split; [exact Hrun |]. split; [| split].
      * by rewrite Hvars, insert_insert_eq.
      * rewrite Hcont, contents_emplace by (unfold in_size_type in *; lia).
        by rewrite <- app_assoc.
      * rewrite Hsys, syscalls_app. cbn. by rewrite app_nil_r.
Qed.

(** X14.  When the constructor of one element of such a sequence throws,
    the exception leaves the caller with exactly the elements appended
    before it: they are in place, the size counts them, and the failed and
    the later elements left no trace. *)
Theorem emplace_back_each_stops_at_throw this l1 xs1 args l2 m s :
  vars m !! this = Some s ->
  in_size_type (size s) -> sizeof_T <> 0 ->
  size s + Z.of_nat (length l1) <= SIZE_TYPE_MAX ->
  Forall2 (fun args x => construct args = Some x) l1 xs1 ->
  construct args = None ->
  exists m',
    emplace_back_each this (l1 ++ args :: l2) m = Abort ctor_exception m'
    /\ vars m' = <[this := {| memory := memory s;
                              size := size s + Z.of_nat (length l1);
                              max_size := max_size s |}]> (vars m)
    /\ contents m' {| memory := memory s;
                      size := size s + Z.of_nat (length l1);
                      max_size := max_size s |}
       = contents m s ++ (Some <$> xs1).
Proof.
  intros Hs Hsize Hsz Hroom Hall Hthrow. revert m s Hs Hsize Hroom.
  induction Hall as [| a x l xs Hx _ IH]; intros m s Hs Hsize Hroom.
  - exists m. cbn [app emplace_back_each length]. unfold bind.
    rewrite (emplace_back_throw this args m s Hs Hthrow).
    cbn. rewrite Z.add_0_r, app_nil_r.
    assert (Heta : {| memory := memory s; size := size s; max_size := max_size s |} = s)
      by (by destruct s).
    rewrite Heta, insert_id by done. done.
  - cbn [app emplace_back_each length] in *. unfold bind.
    rewrite (emplace_back_run this a m s x Hs Hx).
    rewrite wrap_small by (unfold in_size_type in *; lia).
    edestruct (IH {| log := log m ++ [ev_construct (element_addr s (size s))];
                    objects := <[element_addr s (size s) := x]> (objects m);
                    vars := <[this := {| memory := memory s; size := size s + 1;
                                         max_size := max_size s |}]> (vars m) |}
                 {| memory := memory s; size := size s + 1; max_size := max_size s |})
      as (m' & Hrun & Hvars & Hcont).
    + cbn. by rewrite lookup_insert_eq.
    + cbn. unfold in_size_type in *. lia.
    + cbn. lia.
    + cbn in Hvars, Hcont.
      replace (size s + 1 + Z.of_nat (length l))
        with (size s + Z.of_nat (S (length l))) in Hvars, Hcont by lia.
      exists m'. split; [exact Hrun |]. split.
      * by rewrite Hvars, insert_insert_eq.
      * rewrite Hcont, contents_emplace by (unfold in_size_type in *; lia).
        by rewrite <- app_assoc.
Qed.

(** X15.  With a copy (or move) constructor that yields the value it is
    given, [push_back(value)] on a container with room returns the address
    of the new last element, which holds [value]; the elements before it are
    unchanged. *)
Theorem push_back_appends as_args this value m s :
  vars m !! this = Some s ->
  in_size_type (size s) -> in_size_type (max_size s) -> sizeof_T <> 0 ->
  size s < max_size s ->
  construct (as_args value) = Some value ->
  exists m',
    push_back as_args this value m = Ret (element_addr s (size s)) m'
    /\ vars m' = <[this := {| memory := memory s; size := size s + 1;
                              max_size := max_size s |}]> (vars m)
    /\ back this m' = Ret (element_addr s (size s)) m'
    /\ contents m' {| memory := memory s; size := size s + 1;
                      max_size := max_size s |}
       = contents m s ++ [Some value].
Proof.
  intros Hs Hsize Hmax Hsz Hroom Hcopy. unfold push_back.
  rewrite (emplace_back_run this (as_args value) m s value Hs Hcopy).
  rewrite wrap_small by (unfold in_size_type in *; lia).
  eexists. split; [reflexivity |]. split; [reflexivity |]. split.
  - unfold back, bind, load, ret. exec.
    replace (size s + 1 - 1) with (size s) by lia.
    by rewrite (wrap_small (size s)).
  - apply contents_emplace; [done | unfold in_size_type in *; lia].
Qed.

(** X16.  On a container that is not empty, [pop_back] calls the destructor
    once, on the element [back()] referred to, and decrements the size; the
    elements before it are unchanged and the removed one is no longer
    alive. *)
Theorem pop_back_removes_last this m s :
  vars m !! this = Some s -> in_size_type (size s) -> size s <> 0 ->
  sizeof_T <> 0 ->
  let last := element_addr s (size s - 1) in
  let s' := {| memory := memory s; size := size s - 1; max_size := max_size s |} in
  let m' := {| log := log m ++ [ev_destroy last];
               objects := delete last (objects m);
               vars := <[this := s']> (vars m) |} in
  back this m = Ret last m
  /\ pop_back this m = Ret tt m'
  /\ objects m' !! last = None
  /\ contents m' s' ++ [objects m !! last] = contents m s.
Proof.
  intros Hs Hsize Hne Hsz last s' m'.
  assert (Hw : wrap (size s - 1) = size s - 1)
    by (apply wrap_small; unfold in_size_type in *; lia).
  split; [| split; [| split]].
  - unfold back, bind, load, ret. exec. by rewrite Hw.
  - by rewrite (pop_back_run this m s Hs), Hw.
  - cbn. apply lookup_delete_eq.
  - assert (Hseq : seqZ 0 (size s) = seqZ 0 (size s - 1) ++ [size s - 1]).
    { replace (size s) with (size s - 1 + 1) at 1 by lia.
      rewrite (seqZ_app 0 (size s - 1) 1) by (unfold in_size_type in *; lia).
      by rewrite seqZ_one. }
    unfold contents. cbn. rewrite Hseq, fmap_app. f_equal.
    apply list_fmap_ext. intros i j [-> Hi]%lookup_seqZ.
    change (element_addr s' (0 + Z.of_nat i)) with (element_addr s (0 + Z.of_nat i)).
    apply lookup_delete_ne. intros Heq%(element_addr_inj _ _ _ Hsz). lia.
Qed.

(** X17.  An [emplace_back] into a free slot followed by [pop_back] is a
    round trip: the fields of the container and the object store are as
    before, and the log shows one construction and one destruction at the
    same address. *)
Theorem emplace_pop_round_trip this args x m s :
  vars m !! this = Some s ->
  in_size_type (size s) -> in_size_type (max_size s) -> size s < max_size s ->
  construct args = Some x ->
  objects m !! element_addr s (size s) = None ->
  bind (emplace_back this args) (fun _ => pop_back this) m
  = Ret tt {| log := log m ++ [ev_construct (element_addr s (size s));
                               ev_destroy (element_addr s (size s))];
              objects := objects m;
              vars := vars m |}.
Proof.
  intros Hs Hsize Hmax Hroom Hx Hfree. unfold bind.
  rewrite (emplace_back_run this args m s x Hs Hx).
  rewrite wrap_small by (unfold in_size_type in *; lia).
  erewrite pop_back_run by (cbn; apply lookup_insert_eq). cbn.
  replace (size s + 1 - 1) with (size s) by lia.
  rewrite (wrap_small (size s)) by done.
  change (element_addr {| memory := memory s; size := size s + 1;
                          max_size := max_size s |} (size s))
    with (element_addr s (size s)).
  rewrite <- app_assoc, delete_insert_eq, delete_id, insert_insert_eq by done.
  rewrite insert_id; [done |]. rewrite Hs. by destruct s.
Qed.

Lemma wrap_add_sub a n : in_size_type a -> wrap (wrap (a + n) - n) = a.
Proof.
  intros Ha. unfold wrap. rewrite Zminus_mod_idemp_l.
  replace (a + n - n) with a by lia. by apply wrap_small.
Qed.

Lemma wrap_sub_add a n : in_size_type a -> wrap (wrap (a - n) + n) = a.
Proof.
  intros Ha. unfold wrap. rewrite Zplus_mod_idemp_l.
  replace (a - n + n) with a by lia. by apply wrap_small.
Qed.

(** X18.  [uninitialized_grow_back_by(n)] followed by
    [uninitialized_shrink_back_by(n)] restores the size for every [n], also
    when the intermediate size wrapped around, and returns the old end of
    the elements; shrinking and then growing by the same [n] restores the
    size for every [n] as well.  Neither touches an element or the log.
    Under its precondition [size() >= n], shrinking leaves the size
    [size() - n] and returns the address of the first slot given up. *)
Theorem grow_shrink_round_trip this n m s :
  vars m !! this = Some s -> in_size_type (size s) ->
  bind (uninitialized_grow_back_by this n)
       (fun _ => uninitialized_shrink_back_by this n) m
  = Ret (element_addr s (size s)) m
  /\ bind (uninitialized_shrink_back_by this n)
          (fun _ => uninitialized_grow_back_by this n) m
     = Ret tt m
  /\ (0 <= n <= size s ->
      uninitialized_shrink_back_by this n m
      = Ret (element_addr s (size s - n))
            (with_vars (<[this := {| memory := memory s;
                                     size := size s - n;
                                     max_size := max_size s |}]> (vars m)) m)).
Proof.
  intros Hs Hsize.
  assert (Heta : {| memory := memory s; size := size s; max_size := max_size s |} = s)
    by (by destruct s).
  split; [| split].
  - unfold bind. rewrite (uninitialized_grow_back_by_run this n m s Hs).
    erewrite uninitialized_shrink_back_by_run by (cbn; apply lookup_insert_eq).
    cbn. rewrite wrap_add_sub by done.
    unfold with_vars. cbn. rewrite insert_insert_eq, Heta, insert_id by done.
    by destruct m.
  - unfold bind. rewrite (uninitialized_shrink_back_by_run this n m s Hs).
    erewrite uninitialized_grow_back_by_run by (cbn; apply lookup_insert_eq).
    cbn. rewrite wrap_sub_add by done.
    unfold with_vars. cbn. rewrite insert_insert_eq, Heta, insert_id by done.
    by destruct m.
  - intros Hn. rewrite (uninitialized_shrink_back_by_run this n m s Hs).
    rewrite (wrap_small (size s - n)) by (unfold in_size_type in *; lia).
    done.
Qed.

(** *** Whole-container operations *)

(** X19.  [swap] exchanges the base pointers, sizes and capacities of two
    containers and touches neither an element nor the log; it does the same
    with the arguments in the other order, swapping twice restores the
    state, and swapping a container with itself changes nothing. *)
Theorem swap_exchanges a b m sa sb :
  vars m !! a = Some sa -> vars m !! b = Some sb ->
  swap a b m = Ret tt (with_vars (<[b := sa]> (<[a := sb]> (vars m))) m)
  /\ swap b a m = swap a b m
  /\ bind (swap a b) (fun _ => swap a b) m = Ret tt m
  /\ swap a a m = Ret tt m.
Proof.
  intros Ha Hb.
  split; [by apply swap_run |]. split; [| split].
  - rewrite (swap_run a b m sa sb Ha Hb), (swap_run b a m sb sa Hb Ha).
    do 2 f_equal. destruct (decide (a = b)) as [-> | Hne].
    + by assert (sa = sb) as -> by congruence.
    + by apply insert_insert_ne.
  - unfold bind. rewrite (swap_run a b m sa sb Ha Hb).
    rewrite (swap_run a b _ sb sa).
    + unfold with_vars. cbn. destruct m as [l o w]. cbn in *. do 2 f_equal.
      apply map_eq. intros k.
      destruct (decide (k = b)) as [-> | Hkb]; [by rewrite lookup_insert_eq |].
      rewrite lookup_insert_ne by done.
      destruct (decide (k = a)) as [-> | Hka]; [by rewrite lookup_insert_eq |].
      by rewrite !lookup_insert_ne.
    + cbn. destruct (decide (a = b)) as [-> | Hne].
      * rewrite lookup_insert_eq. congruence.
      * by rewrite lookup_insert_ne, lookup_insert_eq.
    + cbn. by rewrite lookup_insert_eq.
  - rewrite (swap_run a a m sa sa Ha Ha). unfold with_vars.
    rewrite insert_insert_eq, insert_id by done. by destruct m.
Qed.

(** X22.  [clear()] is idempotent: a second [clear()] calls no destructor
    and leaves the state as the first one left it. *)
Theorem clear_idempotent this m s :
  vars m !! this = Some s -> in_size_type (size s) ->
  bind (clear this) (fun _ => clear this) m = clear this m.
Proof.
  intros Hs Hsize. unfold bind. rewrite (clear_run this m s Hs Hsize).
  rewrite (clear_run this _ (cleared s)).
  - cbn. rewrite clear_events_cleared, clear_objects_cleared, app_nil_r,
      insert_insert_eq.
    do 3 f_equal. unfold cleared. cbn. by destruct (_ || _).
  - cbn. by rewrite lookup_insert_eq.
  - unfold cleared. cbn. destruct (_ || _); [| done].
    unfold in_size_type, SIZE_TYPE_MAX. rewrite modulus_value. lia.
Qed.

(** *** Comparison, further *)

Lemma std_equal_swap n p q m :
  (forall x y, T_eq x y = T_eq y x) ->
  value_of (std_equal n p q m) = value_of (std_equal n q p m).
Proof.
  intros Hsym. revert p q. induction n as [| n IH]; intros p q; [done |].
  cbn [std_equal]. unfold bind, deref, ret.
  destruct (objects m !! p) as [x |] eqn:Hp, (objects m !! q) as [y |] eqn:Hq;
    cbn; rewrite ?Hp, ?Hq; cbn; try done.
  rewrite (Hsym y x). destruct (T_eq x y); cbn; [apply IH | done].
Qed.

(** X20.  [operator==] on containers inherits the properties of [T]'s
    [operator==]: it is reflexive on containers whose elements are alive
    when [T]'s is reflexive, it gives the same result with the operands
    exchanged when [T]'s does, and it is transitive when [T]'s is. *)
Theorem operator_eq_equivalence a b c m sa sb sc :
  vars m !! a = Some sa -> vars m !! b = Some sb -> vars m !! c = Some sc ->
  ((forall x, T_eq x x = true) ->
   (forall i, 0 <= i < size sa -> is_Some (objects m !! element_addr sa i)) ->
   operator_eq a a m = Ret true m)
  /\ ((forall x y, T_eq x y = T_eq y x) ->
      value_of (operator_eq a b m) = value_of (operator_eq b a m))
  /\ ((forall x y z, T_eq x y = true -> T_eq y z = true -> T_eq x z = true) ->
      operator_eq a b m = Ret true m -> operator_eq b c m = Ret true m ->
      operator_eq a c m = Ret true m).
Proof.
  intros Ha Hb Hc. split; [| split].
  - intros Hrefl Hlive. rewrite (operator_eq_run a a m sa sa Ha Ha), Z.eqb_refl. cbn.
    apply std_equal_true. intros i Hi.
    destruct (Hlive i) as [x Hx]; [lia |]. unfold element_addr in Hx.
    exists x, x. eauto.
  - intros Hsym.
    rewrite (operator_eq_run a b m sa sb Ha Hb), (operator_eq_run b a m sb sa Hb Ha).
    rewrite (Z.eqb_sym (size sb) (size sa)).
    destruct (Z.eqb_spec (size sa) (size sb)) as [<- | _]; cbn; [| done].
    by apply std_equal_swap.
  - intros Htrans.
    rewrite (operator_eq_run a b m sa sb Ha Hb), (operator_eq_run b c m sb sc Hb Hc),
      (operator_eq_run a c m sa sc Ha Hc).
    destruct (Z.eqb_spec (size sa) (size sb)) as [Hab | _]; cbn; [| done].
    destruct (Z.eqb_spec (size sb) (size sc)) as [Hbc | _]; cbn; [| done].
    destruct (Z.eqb_spec (size sa) (size sc)) as [_ | Hac]; cbn; [| congruence].
    rewrite !std_equal_true, <- Hab. intros H1 H2 i Hi.
    destruct (H1 i Hi) as (x & y & Hx & Hy & Hxy).
    destruct (H2 i Hi) as (y' & z & Hy' & Hz & Hyz).
    assert (y' = y) as -> by congruence.
    exists x, z. eauto.
Qed.

(** X21.  Containers of different sizes compare unequal and two empty
    containers compare equal without any element being read, so also when a
    container is unbacked or its storage holds no object. *)
Theorem operator_eq_without_reading a b m sa sb :
  vars m !! a = Some sa -> vars m !! b = Some sb ->
  (size sa <> size sb ->
   operator_eq a b m = Ret false m /\ operator_ne a b m = Ret true m)
  /\ (size sa = 0 -> size sb = 0 ->
      operator_eq a b m = Ret true m /\ operator_ne a b m = Ret false m).
Proof.
  intros Ha Hb. unfold operator_ne, bind.
  rewrite (operator_eq_run a b m sa sb Ha Hb). split.
  - intros Hne. by destruct (Z.eqb_spec (size sa) (size sb)).
  - intros -> ->. done.
Qed.

(** *** Accessors *)

(** X23.  [begin()] and [end()] delimit [size()] elements of [sizeof(T)]
    bytes each; [front()] is the element at [begin()], and on a container
    that is not empty [back()] is the element just before [end()];
    [empty()] holds exactly when [begin() == end()]. *)
Theorem iterator_range this m s :
  vars m !! this = Some s ->
  begin_ this m = Ret (memory s) m
  /\ end_ this m = Ret (memory s + size s * sizeof_T) m
  /\ front this m = Ret (memory s) m
  /\ (in_size_type (size s) -> size s <> 0 ->
      back this m = Ret (memory s + size s * sizeof_T - sizeof_T) m)
  /\ (sizeof_T <> 0 ->
      (empty this m = Ret true m <-> memory s = memory s + size s * sizeof_T)).
Proof.
  intros Hs.
  unfold begin_, end_, front, back, empty, data, get_size, bind, load, ret.
  rewrite Hs. cbn. rewrite Hs. cbn.
  split; [done |]. split; [done |]. split; [done |]. split.
  - intros Hsize Hne.
    rewrite wrap_small by (unfold in_size_type in *; lia). do 2 f_equal. lia.
  - intros Hsz. destruct (Z.eqb_spec (size s) 0) as [Hz | Hnz].
    + split; [intros _; lia | done].
    + split; [done |]. intros Heq. exfalso. apply Hnz.
      apply (Z.mul_eq_0_l _ sizeof_T); [lia | done].
Qed.

(** X24.  In every state a program reaches, the conversion to [bool] of a
    container is true exactly when its capacity is not zero, and an unbacked
    container is empty. *)
Theorem reachable_unbacked_is_empty m v s :
  reachable m -> vars m !! v = Some s ->
  to_bool v m = Ret (negb (max_size s =? 0)) m
  /\ (to_bool v m = Ret false m -> empty v m = Ret true m).
Proof.
  intros Hreach Hs.
  destruct (map_Forall_lookup_1 _ _ _ _ (reachable_wf m Hreach) Hs)
    as ([Hiff Hle] & Hsize & _).
  unfold to_bool, empty, data, get_size, bind, load, ret. rewrite Hs. cbn.
  split.
  - do 2 f_equal.
    destruct (Z.eqb_spec (memory s) 0), (Z.eqb_spec (max_size s) 0); try done; lia.
  - intros [= Hb%negb_false_iff%Z.eqb_eq].
    assert (size s = 0) as -> by (unfold in_size_type in *; lia). done.
Qed.

End Ovector.

(** ** The model at work

    Runs of the embedding on an [int]-like element type (four bytes,
    constructed from an integer, compared with [Z.eqb]) on the POSIX back end
    with [granting_kernel], whose reservations all start at address
    [16 * 4096 = 65536]. *)

Arguments Ret {T R} r m.
Arguments Abort {T R} why m.
Arguments op_default {Args} v.
Arguments op_with_max_size_or_null {Args} v n.
Arguments op_move {Args} v other.
Arguments op_move_assign {Args} v other.
Arguments op_emplace_back {Args} v args.
Arguments op_pop_back {Args} v.
Arguments op_clear {Args} v.
Arguments op_grow {Args} v n.
Arguments op_shrink {Args} v n.
Arguments op_swap {Args} v other.
Arguments op_destroy {Args} v.

Ltac size_type_range :=
  unfold in_size_type, SIZE_TYPE_MAX; rewrite modulus_value; cbn; lia.

(** C1.  The byte size [max_size * sizeof(T)] is computed in [size_type]
    without any check.  For a four-byte element type and
    [n = 2^62 + 1] the product [2^64 + 4] exceeds [SIZE_TYPE_MAX] and wraps
    to [4]: [guarded_alloc(4, 4)] succeeds with a two-page reservation, and
    [with_max_size_or_null(n)] returns a backed container that reports
    [max_size() == 2^62 + 1] over four usable bytes. *)
Theorem with_max_size_or_null_multiplication_wraps :
  SIZE_TYPE_MAX < (2 ^ 62 + 1) * 4
  /\ wrap ((2 ^ 62 + 1) * 4) = 4
  /\ with_max_size_or_null (T := Z) 4 Posix granting_kernel 0%nat (2 ^ 62 + 1) initial
     = Ret tt {| log := [ev_mmap 8192; ev_mmap_guard (65536 + 4096) 4096];
                 objects := ∅;
                 vars := {[ 0%nat := {| memory := 65536 + 4096 - 4;
                                        size := 0;
                                        max_size := 2 ^ 62 + 1 |} ]} |}.
Proof. repeat split; vm_compute; reflexivity. Qed.

(** Witness for C3: a five-byte request with a four-byte guard. *)
Lemma guarded_alloc_pointer_offset_witness :
  exists base,
    os_guarded_alloc (T := Z) Posix granting_kernel 4096 4096 initial
    = Ret base {| log := [ev_mmap 8192; ev_mmap_guard 69632 4096];
                  objects := ∅; vars := ∅ |}
    /\ 69627 = base + (4096 - 5)
    /\ 69627 + 5 = base + 4096.
Proof.
  destruct (guarded_alloc_pointer_offset (T := Z) Posix granting_kernel 5 4
              initial 69627
              {| log := [ev_mmap 8192; ev_mmap_guard 69632 4096];
                 objects := ∅; vars := ∅ |})
    as (_ & base & Hos & _ & Hp & Hend & _).
  - size_type_range.
  - size_type_range.
  - vm_compute. reflexivity.
  - lia.
  - exists base. repeat split; [exact Hos | exact Hp | exact Hend].
Defined.

(** Witness for C4: the same request, given back. *)
Lemma guarded_dealloc_releases_reservation_witness :
  guarded_dealloc (T := Z) Posix granting_kernel 69627 5 4
    {| log := [ev_mmap 8192; ev_mmap_guard 69632 4096]; objects := ∅; vars := ∅ |}
  = Ret tt {| log := [ev_mmap 8192; ev_mmap_guard 69632 4096; ev_munmap 65536 8192];
              objects := ∅; vars := ∅ |}.
Proof.
  destruct (guarded_dealloc_releases_reservation (T := Z) Posix granting_kernel 5 4
              initial 69627
              {| log := [ev_mmap 8192; ev_mmap_guard 69632 4096];
                 objects := ∅; vars := ∅ |}
              {| log := [ev_mmap 8192; ev_mmap_guard 69632 4096];
                 objects := ∅; vars := ∅ |})
    as (base & Hos & _ & _ & Hacc & _).
  - size_type_range.
  - size_type_range.
  - vm_compute. reflexivity.
  - lia.
  - assert (base = 65536) as -> by (vm_compute in Hos; congruence).
    apply Hacc. reflexivity.
Defined.

(** Witness for C5: a granted request for three elements, the same request
    refused by the kernel, and a request for no element. *)
Lemma with_max_size_or_null_spec_witness :
  (exists s,
     with_max_size_or_null (T := Z) 4 Posix granting_kernel 0%nat 3 initial
     = Ret tt {| log := [ev_mmap 8192; ev_mmap_guard 69632 4096];
                 objects := ∅; vars := {[ 0%nat := s ]} |}
     /\ memory s = 69620 /\ size s = 0 /\ max_size s = 3)
  /\ (exists s,
       with_max_size_or_null (T := Z) 4 Posix refusing_kernel 0%nat 3 initial
       = Ret tt {| log := [ev_mmap 8192]; objects := ∅; vars := {[ 0%nat := s ]} |}
       /\ memory s = 0 /\ size s = 0 /\ max_size s = 0)
  /\ with_max_size_or_null (T := Z) 4 Posix granting_kernel 0%nat 0 initial
     = Ret tt {| log := []; objects := ∅; vars := {[ 0%nat := unbacked ]} |}.
Proof.
  split; [| split].
  - destruct (with_max_size_or_null_spec (T := Z) 4 Posix granting_kernel 0%nat 3
                initial 69620
                {| log := [ev_mmap 8192; ev_mmap_guard 69632 4096];
                   objects := ∅; vars := ∅ |})
      as [(s & Hrun & Hmem & Hsize & Hmax & _) _].
    + vm_compute. reflexivity.
    + exists s. repeat split; [exact Hrun | exact Hmem | exact Hsize |].
      apply Hmax. lia.
  - destruct (with_max_size_or_null_spec (T := Z) 4 Posix refusing_kernel 0%nat 3
                initial 0
                {| log := [ev_mmap 8192]; objects := ∅; vars := ∅ |})
      as [(s & Hrun & Hmem & Hsize & _ & Hmax) _].
    + vm_compute. reflexivity.
    + exists s. repeat split; [exact Hrun | exact Hmem | exact Hsize |].
      apply Hmax. reflexivity.
  - destruct (with_max_size_or_null_spec (T := Z) 4 Posix granting_kernel 0%nat 0
                initial 0 initial)
      as [_ Hzero].
    + vm_compute. reflexivity.
    + destruct (Hzero eq_refl) as (_ & _ & Hrun). exact Hrun.
Defined.

(** Witness for C2: a constructor that throws and one that returns, on an
    empty container of capacity three. *)
Lemma emplace_back_strong_guarantee_witness :
  let m := {| log := []; objects := (∅ : gmap Z Z);
              vars := {[ 0%nat := {| memory := 69620; size := 0; max_size := 3 |} ]} |} in
  emplace_back 4 Z int_construct 0%nat (-1) m = Abort ctor_exception m
  /\ exists m',
       emplace_back 4 Z int_construct 0%nat 7 m = Ret 69620 m'
       /\ vars m' = <[ 0%nat := {| memory := 69620; size := 1; max_size := 3 |} ]> (vars m)
       /\ objects m' !! 69620 = Some 7.
Proof.
  intros m. split.
  - apply (emplace_back_strong_guarantee 4 Z int_construct 0%nat (-1) m
             {| memory := 69620; size := 0; max_size := 3 |});
      [reflexivity | cbn; lia | size_type_range | size_type_range | cbn; lia].
  - destruct (emplace_back_strong_guarantee 4 Z int_construct 0%nat 7 m
                {| memory := 69620; size := 0; max_size := 3 |})
      as (m' & Hrun & Hvars & _ & Hobj & _);
      [reflexivity | cbn; lia | size_type_range | size_type_range | cbn; lia |].
    exists m'. repeat split; [exact Hrun | exact Hvars | exact Hobj].
Defined.

(** Witness for C8: two elements with a destructor. *)
Lemma clear_destroys_in_order_witness :
  clear (T := Z) 4 false 0%nat
    {| log := []; objects := {[ 69620 := 7; 69624 := 8 ]};
       vars := {[ 0%nat := {| memory := 69620; size := 2; max_size := 3 |} ]} |}
  = Ret tt {| log := [ev_destroy 69620; ev_destroy 69624];
              objects := ∅;
              vars := {[ 0%nat := {| memory := 69620; size := 0; max_size := 3 |} ]} |}.
Proof.
  refine (eq_trans
            (proj1 (clear_destroys_in_order (T := Z) 4 false 0%nat
                      {| log := []; objects := {[ 69620 := 7; 69624 := 8 ]};
                         vars := {[ 0%nat := {| memory := 69620; size := 2;
                                                max_size := 3 |} ]} |}
                      {| memory := 69620; size := 2; max_size := 3 |} _ _ _)) _).
  - reflexivity.
  - cbn. lia.
  - size_type_range.
  - vm_compute. reflexivity.
Defined.

(** Witness for C9: equal sequences under different capacities. *)
Lemma operator_eq_spec_witness :
  let m := {| log := []; objects := {[ 69620 := 123; 135156 := 123 ]};
              vars := {[ 0%nat := {| memory := 69620; size := 1; max_size := 1234 |};
                         1%nat := {| memory := 135156; size := 1; max_size := 2345 |} ]} |} in
  operator_eq 4 Z.eqb 0%nat 1%nat m = Ret true m
  /\ operator_ne 4 Z.eqb 0%nat 1%nat m = Ret false m.
Proof.
  intros m.
  destruct (operator_eq_spec 4 Z.eqb 0%nat 1%nat m
              {| memory := 69620; size := 1; max_size := 1234 |}
              {| memory := 135156; size := 1; max_size := 2345 |})
    as (Htrue & _ & _ & Hne); [reflexivity | reflexivity |].
  assert (Heq : operator_eq 4 Z.eqb 0%nat 1%nat m = Ret true m).
  { apply Htrue. split; [reflexivity |]. intros i Hi. cbn in Hi.
    assert (i = 0) as -> by lia. exists 123, 123. repeat split. }
  split; [exact Heq |]. rewrite Hne, Heq. reflexivity.
Defined.

(** Witness for C7: a container of capacity three holding one element takes
    over a container of capacity five holding two; and a new container is
    move-constructed from the latter. *)
Lemma move_transfers_storage_witness :
  let d := {| memory := 69620; size := 1; max_size := 3 |} in
  let s := {| memory := 135148; size := 2; max_size := 5 |} in
  let m := {| log := []; objects := {[ 69620 := 1; 135148 := 2; 135152 := 3 ]};
              vars := {[ 0%nat := d; 1%nat := s ]} |} in
  ovector_move 2%nat 1%nat m
  = Ret tt {| log := []; objects := objects m;
              vars := <[ 2%nat := s ]> (<[ 1%nat := unbacked ]> (vars m)) |}
  /\ ovector_move_assign 4 false Posix granting_kernel 0%nat 1%nat m
     = Ret tt {| log := [ev_destroy 69620; ev_munmap 65536 8192];
                 objects := {[ 135148 := 2; 135152 := 3 ]};
                 vars := <[ 0%nat := s ]> (<[ 1%nat := unbacked ]> (vars m)) |}.
Proof.
  intros d s m. split.
  - apply (proj1 (move_transfers_storage 4 false Posix granting_kernel
                    2%nat 1%nat m s ltac:(lia) eq_refl)).
    reflexivity.
  - refine (eq_trans
              (proj2 (move_transfers_storage 4 false Posix granting_kernel
                        0%nat 1%nat m s ltac:(lia) eq_refl) d eq_refl _ _) _).
    + size_type_range.
    + intros _. reflexivity.
    + vm_compute. reflexivity.
Defined.

(** Witness for C10 as amended: a container of capacity three holding one
    element, with the history of its reservation, is assigned to itself. *)
Lemma self_move_assign_keeps_reservation_witness :
  let s := {| memory := 69620; size := 1; max_size := 3 |} in
  let m := {| log := [ev_mmap 8192; ev_mmap_guard 69632 4096; ev_construct 69620];
              objects := {[ 69620 := 1 ]}; vars := {[ 0%nat := s ]} |} in
  exists m',
    ovector_move_assign 4 false Posix granting_kernel 0%nat 0%nat m = Ret tt m'
    /\ vars m' = {[ 0%nat := {| memory := 69620; size := 0; max_size := 3 |} ]}
    /\ log m' = [ev_mmap 8192; ev_mmap_guard 69632 4096; ev_construct 69620;
                 ev_destroy 69620]
    /\ syscalls (log m') = [ev_mmap 8192; ev_mmap_guard 69632 4096].
Proof.
  intros s m.
  destruct (self_move_assign_keeps_reservation 4 false Posix granting_kernel 0%nat m s)
    as (m' & Hrun & Hvars & _ & _ & Hlog & Hsys & _);
    [reflexivity | size_type_range | cbn; lia | cbn; lia |].
  exists m'. split; [exact Hrun |]. split; [| split].
  - rewrite Hvars. vm_compute. reflexivity.
  - rewrite Hlog. vm_compute. reflexivity.
  - rewrite Hsys. reflexivity.
Defined.

(** C10 as stated does not hold: on that container the self-assignment
    returns with the fields kept and the size 0, but the log gains the
    destructor call only.  No [munmap] is made, so the reservation has not
    been released. *)
Lemma self_move_assign_releases_nothing :
  let s := {| memory := 69620; size := 1; max_size := 3 |} in
  let m := {| log := [ev_mmap 8192; ev_mmap_guard 69632 4096; ev_construct 69620];
              objects := {[ 69620 := 1 ]}; vars := {[ 0%nat := s ]} |} in
  ovector_move_assign 4 false Posix granting_kernel 0%nat 0%nat m
  = Ret tt {| log := [ev_mmap 8192; ev_mmap_guard 69632 4096; ev_construct 69620;
                      ev_destroy 69620];
              objects := ∅;
              vars := {[ 0%nat := {| memory := 69620; size := 0; max_size := 3 |} ]} |}
  /\ release_event Posix (reservation_base 4 s) (reservation_len 4 s)
     = ev_munmap 65536 8192
  /\ ~ (exists m',
          ovector_move_assign 4 false Posix granting_kernel 0%nat 0%nat m = Ret tt m'
          /\ In (release_event Posix (reservation_base 4 s) (reservation_len 4 s))
                (log m')).
Proof.
  intros s m.
  assert (Hrun : ovector_move_assign 4 false Posix granting_kernel 0%nat 0%nat m
                 = Ret tt {| log := [ev_mmap 8192; ev_mmap_guard 69632 4096;
                                     ev_construct 69620; ev_destroy 69620];
                             objects := ∅;
                             vars := {[ 0%nat := {| memory := 69620; size := 0;
                                                    max_size := 3 |} ]} |})
    by (vm_compute; reflexivity).
  split; [exact Hrun |]. split; [vm_compute; reflexivity |].
  intros (m' & Hrun' & Hin). rewrite Hrun in Hrun'. injection Hrun' as <-.
  vm_compute in Hin. intuition discriminate.
Qed.

(** Witness for C6: a container is created with capacity two, receives an
    element, is assigned to itself and is swapped with a default-constructed
    one. *)
Lemma reachable_storage_invariant_witness :
  ((2 = 0 <-> 69624 = 0) /\ 0 <= 2) /\ ((0 = 0 <-> 0 = 0) /\ 0 <= 0).
Proof.
  pose (s0 := {| memory := 69624; size := 0; max_size := 2 |}).
  pose (s1 := {| memory := 69624; size := 1; max_size := 2 |}).
  pose (l1 := [ev_mmap 8192; ev_mmap_guard 69632 4096]).
  pose (l2 := l1 ++ [ev_construct 69624]).
  pose (m1 := {| log := l1; objects := (∅ : gmap Z Z); vars := {[ 0%nat := s0 ]} |}).
  pose (m2 := {| log := l2; objects := {[ 69624 := 7 ]}; vars := {[ 0%nat := s1 ]} |}).
  pose (m3 := {| log := l2; objects := {[ 69624 := 7 ]}; vars := {[ 0%nat := s0 ]} |}).
  pose (m4 := {| log := l2; objects := {[ 69624 := 7 ]};
                 vars := {[ 0%nat := s0; 1%nat := unbacked ]} |}).
  pose (m5 := {| log := l2; objects := {[ 69624 := 7 ]};
                 vars := {[ 0%nat := unbacked; 1%nat := s0 ]} |}).
  assert (Hreach : reachable 4 true Z int_construct Posix granting_kernel m5).
  { apply (reachable_return _ _ _ _ _ _ (op_swap 0%nat 1%nat) m4 m5);
      [| vm_compute; reflexivity | vm_compute; reflexivity].
    apply (reachable_return _ _ _ _ _ _ (op_default 1%nat) m3 m4);
      [| vm_compute; reflexivity | vm_compute; reflexivity].
    apply (reachable_return _ _ _ _ _ _ (op_move_assign 0%nat 0%nat) m2 m3);
      [| vm_compute; reflexivity | vm_compute; reflexivity].
    apply (reachable_return _ _ _ _ _ _ (op_emplace_back 0%nat 7) m1 m2);
      [| vm_compute; reflexivity | vm_compute; reflexivity].
    apply (reachable_return _ _ _ _ _ _ (op_with_max_size_or_null 0%nat 2) initial m1);
      [| vm_compute; reflexivity | vm_compute; reflexivity].
    apply reachable_initial. }
  split.
  - apply (reachable_storage_invariant 4 true Z int_construct Posix granting_kernel
             m5 1%nat s0 Hreach).
    reflexivity.
  - apply (reachable_storage_invariant 4 true Z int_construct Posix granting_kernel
             m5 0%nat unbacked Hreach).
    reflexivity.
Defined.

(** Witness for X1: rounding five bytes up to a page. *)
Lemma ceil_multiple_rounds_up_witness :
  ceil_multiple 5 4096 mod 4096 = 0
  /\ 5 <= ceil_multiple 5 4096 < 5 + 4096
  /\ (forall k, 5 <= k -> k mod 4096 = 0 -> ceil_multiple 5 4096 <= k)
  /\ (5 mod 4096 = 0 -> ceil_multiple 5 4096 = 5).
Proof.
  apply (ceil_multiple_rounds_up 5 4096);
    [lia | lia | unfold SIZE_TYPE_MAX; rewrite modulus_value; lia].
Defined.

(** Witness for X2: the largest [size_type]. *)
Lemma ceil_multiple_wraps_past_limit_witness :
  ceil_multiple SIZE_TYPE_MAX PAGE_SIZE = 0.
Proof.
  apply ceil_multiple_wraps_past_limit;
    unfold SIZE_TYPE_MAX, PAGE_SIZE; rewrite modulus_value; lia.
Defined.

(** Witness for X3: a sum that fits and one that does not. *)
Lemma add_overflows_exact_witness :
  (add_overflows 4096 4096 = false <-> wrap (4096 + 4096) = 4096 + 4096)
  /\ add_overflows SIZE_TYPE_MAX 1 = add_overflows 1 SIZE_TYPE_MAX.
Proof.
  split.
  - apply (add_overflows_exact 4096 4096); size_type_range.
  - apply (add_overflows_exact SIZE_TYPE_MAX 1); size_type_range.
Defined.

(** Witness for X4: an empty request and the largest possible one. *)
Lemma guarded_alloc_null_without_syscall_witness :
  guarded_alloc (T := Z) Posix granting_kernel 0 4 initial = Ret 0 initial
  /\ guarded_alloc (T := Z) Posix granting_kernel SIZE_TYPE_MAX 1 initial = Ret 0 initial.
Proof.
  split.
  - apply guarded_alloc_null_without_syscall; [size_type_range | size_type_range |].
    left. reflexivity.
  - apply guarded_alloc_null_without_syscall; [size_type_range | size_type_range |].
    right. vm_compute. reflexivity.
Defined.

(** Witness for X5: five bytes with a four-byte guard, under a kernel that
    grants, one that refuses, and one that refuses the guard. *)
Lemma guarded_alloc_outcomes_witness :
  guarded_alloc (T := Z) Posix granting_kernel 5 4 initial
  = Ret 69627 {| log := [ev_mmap 8192; ev_mmap_guard 69632 4096];
                 objects := ∅; vars := ∅ |}
  /\ guarded_alloc (T := Z) Posix refusing_kernel 5 4 initial
     = Ret 0 {| log := [ev_mmap 8192]; objects := ∅; vars := ∅ |}
  /\ guarded_alloc (T := Z) Posix guard_refusing_kernel 5 4 initial
     = Abort (fatal_error "failed to enable guard page")
             {| log := [ev_mmap 8192; ev_mmap_guard 69632 4096];
                objects := ∅; vars := ∅ |}.
Proof.
  split; [| split].
  - refine (eq_trans (guarded_alloc_outcomes (T := Z) Posix granting_kernel 5 4
                        initial _ _ _ _) _);
      [size_type_range | size_type_range | lia | vm_compute; discriminate |].
    vm_compute. reflexivity.
  - refine (eq_trans (guarded_alloc_outcomes (T := Z) Posix refusing_kernel 5 4
                        initial _ _ _ _) _);
      [size_type_range | size_type_range | lia | vm_compute; discriminate |].
    vm_compute. reflexivity.
  - refine (eq_trans (guarded_alloc_outcomes (T := Z) Posix guard_refusing_kernel 5 4
                        initial _ _ _ _) _);
      [size_type_range | size_type_range | lia | vm_compute; discriminate |].
    vm_compute. reflexivity.
Defined.

(** Witness for X6: twelve bytes, aligned to four. *)
Lemma guarded_alloc_alignment_witness :
  (69620 + 12) mod PAGE_SIZE = 0 /\ 69620 mod 4 = 0.
Proof.
  destruct (guarded_alloc_alignment (T := Z) Posix granting_kernel 12 4 initial 69620
              {| log := [ev_mmap 8192; ev_mmap_guard 69632 4096];
                 objects := ∅; vars := ∅ |})
    as [Hend Halign];
    [size_type_range | size_type_range | vm_compute; reflexivity | lia |].
  split; [exact Hend |]. apply Halign; [lia | reflexivity | reflexivity].
Defined.

(** Witness for X7: capacity three, four-byte elements. *)
Lemma capacity_ends_at_guard_witness :
  exists base,
    element_addr 4 {| memory := 69620; size := 0; max_size := 3 |} 3 = base + 4096
    /\ [ev_mmap 8192; ev_mmap_guard 69632 4096] = reserve_events Posix base 4096 4096.
Proof.
  destruct (capacity_ends_at_guard (T := Z) 4 Posix granting_kernel 0%nat 3 initial
              {| log := [ev_mmap 8192; ev_mmap_guard 69632 4096]; objects := ∅;
                 vars := {[ 0%nat := {| memory := 69620; size := 0; max_size := 3 |} ]} |}
              {| memory := 69620; size := 0; max_size := 3 |})
    as (base & Hlog & _ & Hend & _);
    [size_type_range | size_type_range | size_type_range
    | vm_compute; reflexivity | reflexivity | cbn; lia |].
  exists base. split; [exact Hend | exact Hlog].
Defined.

(** Witness for X8: the same container, destroyed at once. *)
Lemma create_destroy_balanced_witness :
  ovector_destroy (T := Z) 4 false Posix granting_kernel 0%nat
    {| log := [ev_mmap 8192; ev_mmap_guard 69632 4096]; objects := ∅;
       vars := {[ 0%nat := {| memory := 69620; size := 0; max_size := 3 |} ]} |}
  = Ret tt {| log := [ev_mmap 8192; ev_mmap_guard 69632 4096; ev_munmap 65536 8192];
              objects := ∅; vars := ∅ |}.
Proof.
  destruct (create_destroy_balanced (T := Z) 4 false Posix granting_kernel 0%nat 3 initial
              {| log := [ev_mmap 8192; ev_mmap_guard 69632 4096]; objects := ∅;
                 vars := {[ 0%nat := {| memory := 69620; size := 0; max_size := 3 |} ]} |}
              {| memory := 69620; size := 0; max_size := 3 |})
    as (base & Hlog & Hrun);
    [size_type_range | vm_compute; reflexivity | reflexivity | cbn; lia |].
  assert (base = 65536) as ->.
  { injection Hlog as Hguard.
    change (ceil_multiple (wrap (3 * 4)) PAGE_SIZE) with 4096 in Hguard. lia. }
  rewrite Hrun by reflexivity. vm_compute. reflexivity.
Defined.

(** Witness for X9: an unbacked container, and a backed one holding two
    elements with a destructor. *)
Lemma ovector_destroy_spec_witness :
  ovector_destroy (T := Z) 4 false Posix granting_kernel 0%nat
    {| log := []; objects := ∅; vars := {[ 0%nat := unbacked ]} |}
  = Ret tt {| log := []; objects := ∅; vars := ∅ |}
  /\ ovector_destroy (T := Z) 4 false Posix granting_kernel 0%nat
       {| log := []; objects := {[ 69620 := 7; 69624 := 8 ]};
          vars := {[ 0%nat := {| memory := 69620; size := 2; max_size := 3 |} ]} |}
     = Ret tt {| log := [ev_destroy 69620; ev_destroy 69624; ev_munmap 65536 8192];
                 objects := ∅; vars := ∅ |}.
Proof.
  split.
  - refine (eq_trans
              (proj1 (ovector_destroy_spec (T := Z) 4 false Posix granting_kernel 0%nat
                        {| log := []; objects := ∅; vars := {[ 0%nat := unbacked ]} |}
                        unbacked _ _) _) _);
      [reflexivity | size_type_range | reflexivity |].
    vm_compute. reflexivity.
  - refine (eq_trans
              (proj2 (ovector_destroy_spec (T := Z) 4 false Posix granting_kernel 0%nat
                        {| log := []; objects := {[ 69620 := 7; 69624 := 8 ]};
                           vars := {[ 0%nat := {| memory := 69620; size := 2;
                                                  max_size := 3 |} ]} |}
                        {| memory := 69620; size := 2; max_size := 3 |} _ _) _ _) _);
      [reflexivity | size_type_range | cbn; lia | reflexivity |].
    vm_compute. reflexivity.
Defined.

(** Witness for X10: a container is moved into a new one and destroyed. *)
Lemma move_then_destroy_source_witness :
  let s := {| memory := 69620; size := 1; max_size := 3 |} in
  let m := {| log := []; objects := {[ 69620 := 7 ]}; vars := {[ 0%nat := s ]} |} in
  bind (ovector_move 1%nat 0%nat)
       (fun _ => ovector_destroy 4 false Posix granting_kernel 0%nat) m
  = Ret tt {| log := []; objects := {[ 69620 := 7 ]}; vars := {[ 1%nat := s ]} |}.
Proof.
  intros s m.
  refine (eq_trans
            (move_then_destroy_source 4 false Posix granting_kernel 1%nat 0%nat m s _ _) _);
    [lia | reflexivity |].
  vm_compute. reflexivity.
Defined.

(** Witness for X11: self-assignment, then the destructor. *)
Lemma self_move_assign_then_destroy_witness :
  let s := {| memory := 69620; size := 1; max_size := 3 |} in
  let m := {| log := []; objects := {[ 69620 := 7 ]}; vars := {[ 0%nat := s ]} |} in
  bind (ovector_move_assign 4 false Posix granting_kernel 0%nat 0%nat)
       (fun _ => ovector_destroy 4 false Posix granting_kernel 0%nat) m
  = Ret tt {| log := [ev_destroy 69620; ev_munmap 65536 8192];
              objects := ∅; vars := ∅ |}.
Proof.
  intros s m.
  refine (eq_trans
            (proj1 (self_move_assign_then_destroy 4 false Posix granting_kernel 0%nat m s
                      _ _ _)) _);
    [reflexivity | size_type_range | intros _; reflexivity |].
  vm_compute. reflexivity.
Defined.

(** Witness for X12: [pop_back] on a container with one element. *)
Lemma element_operations_keep_reservation_witness :
  let s := {| memory := 69620; size := 1; max_size := 3 |} in
  let m := {| log := [ev_mmap 8192; ev_mmap_guard 69632 4096; ev_construct 69620];
              objects := {[ 69620 := 7 ]}; vars := {[ 0%nat := s ]} |} in
  let m' := {| log := [ev_mmap 8192; ev_mmap_guard 69632 4096; ev_construct 69620;
                       ev_destroy 69620];
               objects := (∅ : gmap Z Z);
               vars := {[ 0%nat := {| memory := 69620; size := 0; max_size := 3 |} ]} |} in
  syscalls (log m') = syscalls (log m)
  /\ exists sz,
       vars m' = <[ 0%nat := {| memory := 69620; size := sz; max_size := 3 |} ]> (vars m).
Proof.
  intros s m m'.
  apply (element_operations_keep_reservation 4 false Z int_construct Posix granting_kernel
           (op_pop_back 0%nat) 0%nat m s m');
    [reflexivity | reflexivity | size_type_range | left; vm_compute; reflexivity].
Defined.

(** Witness for X13: two elements appended to an empty container. *)
Lemma emplace_back_each_appends_witness :
  let s := {| memory := 69620; size := 0; max_size := 3 |} in
  let s' := {| memory := 69620; size := 0 + Z.of_nat 2; max_size := 3 |} in
  let m := {| log := []; objects := (∅ : gmap Z Z); vars := {[ 0%nat := s ]} |} in
  exists m',
    emplace_back_each 4 Z int_construct 0%nat [1; 2] m = Ret tt m'
    /\ vars m' = <[ 0%nat := s' ]> (vars m)
    /\ contents 4 m' s' = contents 4 m s ++ [Some 1; Some 2]
    /\ syscalls (log m') = syscalls (log m).
Proof.
  intros s s' m.
  apply (emplace_back_each_appends 4 Z int_construct 0%nat [1; 2] [1; 2] m s);
    [reflexivity | size_type_range | size_type_range | lia | cbn; lia
    | repeat constructor].
Defined.

(** Witness for X14: the second of three constructors throws. *)
Lemma emplace_back_each_stops_at_throw_witness :
  let s := {| memory := 69620; size := 0; max_size := 3 |} in
  let s' := {| memory := 69620; size := 0 + Z.of_nat 1; max_size := 3 |} in
  let m := {| log := []; objects := (∅ : gmap Z Z); vars := {[ 0%nat := s ]} |} in
  exists m',
    emplace_back_each 4 Z int_construct 0%nat ([1] ++ (-1) :: [2]) m
    = Abort ctor_exception m'
    /\ vars m' = <[ 0%nat := s' ]> (vars m)
    /\ contents 4 m' s' = contents 4 m s ++ [Some 1].
Proof.
  intros s s' m.
  apply (emplace_back_each_stops_at_throw 4 Z int_construct 0%nat [1] [1] (-1) [2] m s);
    [reflexivity | size_type_range | lia | size_type_range | repeat constructor
    | reflexivity].
Defined.

(** Witness for X15: [push_back(5)] on an empty container. *)
Lemma push_back_appends_witness :
  let s := {| memory := 69620; size := 0; max_size := 3 |} in
  let s' := {| memory := 69620; size := 0 + 1; max_size := 3 |} in
  let m := {| log := []; objects := (∅ : gmap Z Z); vars := {[ 0%nat := s ]} |} in
  exists m',
    push_back 4 Z int_construct (fun value => value) 0%nat 5 m = Ret 69620 m'
    /\ vars m' = <[ 0%nat := s' ]> (vars m)
    /\ back 4 0%nat m' = Ret 69620 m'
    /\ contents 4 m' s' = contents 4 m s ++ [Some 5].
Proof.
  intros s s' m.
  apply (push_back_appends 4 Z int_construct (fun value => value) 0%nat 5 m s);
    [reflexivity | size_type_range | size_type_range | lia | cbn; lia | reflexivity].
Defined.

(** Witness for X16: the only element is removed. *)
Lemma pop_back_removes_last_witness :
  let s := {| memory := 69620; size := 1; max_size := 3 |} in
  let m := {| log := []; objects := {[ 69620 := 7 ]}; vars := {[ 0%nat := s ]} |} in
  back 4 0%nat m = Ret 69620 m
  /\ pop_back 4 0%nat m
     = Ret tt {| log := [ev_destroy 69620];
                 objects := delete 69620 (objects m);
                 vars := <[ 0%nat := {| memory := 69620; size := 0; max_size := 3 |} ]>
                           (vars m) |}.
Proof.
  intros s m.
  destruct (pop_back_removes_last 4 0%nat m s) as (Hback & Hpop & _);
    [reflexivity | size_type_range | cbn; lia | lia |].
  split; [exact Hback | exact Hpop].
Defined.

(** Witness for X17: an element is appended and removed again. *)
Lemma emplace_pop_round_trip_witness :
  let s := {| memory := 69620; size := 0; max_size := 3 |} in
  let m := {| log := []; objects := (∅ : gmap Z Z); vars := {[ 0%nat := s ]} |} in
  bind (emplace_back 4 Z int_construct 0%nat 7) (fun _ => pop_back 4 0%nat) m
  = Ret tt {| log := [ev_construct 69620; ev_destroy 69620];
              objects := ∅; vars := vars m |}.
Proof.
  intros s m.
  apply (emplace_pop_round_trip 4 Z int_construct 0%nat 7 7 m s);
    [reflexivity | size_type_range | size_type_range | cbn; lia | reflexivity
    | reflexivity].
Defined.

(** Witness for X18: growing and shrinking by 1234, as [doctest.cpp] does
    with other numbers, and shrinking by one within the size. *)
Lemma grow_shrink_round_trip_witness :
  let s := {| memory := 69620; size := 1; max_size := 3 |} in
  let m := {| log := []; objects := {[ 69620 := 7 ]}; vars := {[ 0%nat := s ]} |} in
  bind (uninitialized_grow_back_by 0%nat 1234)
       (fun _ => uninitialized_shrink_back_by 4 0%nat 1234) m
  = Ret 69624 m
  /\ bind (uninitialized_shrink_back_by 4 0%nat 1234)
          (fun _ => uninitialized_grow_back_by 0%nat 1234) m
     = Ret tt m
  /\ uninitialized_shrink_back_by 4 0%nat 1 m
     = Ret 69620 {| log := []; objects := {[ 69620 := 7 ]};
                    vars := {[ 0%nat := {| memory := 69620; size := 0;
                                           max_size := 3 |} ]} |}.
Proof.
  intros s m.
  destruct (grow_shrink_round_trip 4 0%nat 1234 m s eq_refl ltac:(size_type_range))
    as (Hgrow & Hshrink & _).
  destruct (grow_shrink_round_trip 4 0%nat 1 m s eq_refl ltac:(size_type_range))
    as (_ & _ & Hone).
  split; [exact Hgrow |]. split; [exact Hshrink |].
  rewrite Hone by (cbn; lia). vm_compute. reflexivity.
Defined.

(** Witness for X19: the containers of the test [swap]. *)
Lemma swap_exchanges_witness :
  let s := {| memory := 69620; size := 1; max_size := 123 |} in
  let m := {| log := []; objects := {[ 69620 := 1234 ]};
              vars := {[ 0%nat := s; 1%nat := unbacked ]} |} in
  swap 0%nat 1%nat m
  = Ret tt {| log := []; objects := {[ 69620 := 1234 ]};
              vars := <[ 1%nat := s ]> (<[ 0%nat := unbacked ]> (vars m)) |}
  /\ bind (swap 0%nat 1%nat) (fun _ => swap 0%nat 1%nat) m = Ret tt m.
Proof.
  intros s m.
  destruct (swap_exchanges 0%nat 1%nat m s unbacked) as (Hswap & _ & Htwice & _);
    [reflexivity | reflexivity |].
  split; [exact Hswap | exact Htwice].
Defined.

(** Witness for X20: a container compared with itself and with another. *)
Lemma operator_eq_equivalence_witness :
  let sa := {| memory := 69620; size := 1; max_size := 3 |} in
  let sb := {| memory := 135156; size := 1; max_size := 5 |} in
  let m := {| log := []; objects := {[ 69620 := 123; 135156 := 124 ]};
              vars := {[ 0%nat := sa; 1%nat := sb ]} |} in
  operator_eq 4 Z.eqb 0%nat 0%nat m = Ret true m
  /\ value_of (operator_eq 4 Z.eqb 0%nat 1%nat m)
     = value_of (operator_eq 4 Z.eqb 1%nat 0%nat m).
Proof.
  intros sa sb m.
  destruct (operator_eq_equivalence 4 Z.eqb 0%nat 1%nat 0%nat m sa sb sa)
    as (Hrefl & Hsym & _); [reflexivity | reflexivity | reflexivity |].
  split.
  - apply Hrefl; [apply Z.eqb_refl |]. intros i Hi. cbn in Hi.
    assert (i = 0) as -> by lia. by exists 123.
  - apply Hsym. apply Z.eqb_sym.
Defined.

(** Witness for X21: an unbacked container against an empty backed one and
    against one holding an element. *)
Lemma operator_eq_without_reading_witness :
  let s0 := {| memory := 69620; size := 0; max_size := 3 |} in
  let s1 := {| memory := 135156; size := 1; max_size := 5 |} in
  let m := {| log := []; objects := {[ 135156 := 124 ]};
              vars := {[ 0%nat := unbacked; 1%nat := s0; 2%nat := s1 ]} |} in
  operator_eq 4 Z.eqb 0%nat 1%nat m = Ret true m
  /\ operator_eq 4 Z.eqb 0%nat 2%nat m = Ret false m.
Proof.
  intros s0 s1 m. split.
  - apply (proj2 (operator_eq_without_reading 4 Z.eqb 0%nat 1%nat m unbacked s0
                    eq_refl eq_refl));
      reflexivity.
  - apply (proj1 (operator_eq_without_reading 4 Z.eqb 0%nat 2%nat m unbacked s1
                    eq_refl eq_refl)).
    cbn. lia.
Defined.

(** Witness for X22: clearing twice a container with one element. *)
Lemma clear_idempotent_witness :
  let s := {| memory := 69620; size := 1; max_size := 3 |} in
  let m := {| log := []; objects := {[ 69620 := 7 ]}; vars := {[ 0%nat := s ]} |} in
  bind (clear 4 false 0%nat) (fun _ => clear 4 false 0%nat) m = clear 4 false 0%nat m.
Proof.
  intros s m.
  apply (clear_idempotent 4 false 0%nat m s); [reflexivity | size_type_range].
Defined.

(** Witness for X23: a container with two elements. *)
Lemma iterator_range_witness :
  let s := {| memory := 69620; size := 2; max_size := 3 |} in
  let m := {| log := []; objects := {[ 69620 := 7; 69624 := 8 ]};
              vars := {[ 0%nat := s ]} |} in
  begin_ 0%nat m = Ret 69620 m
  /\ end_ 4 0%nat m = Ret 69628 m
  /\ back 4 0%nat m = Ret 69624 m.
Proof.
  intros s m.
  destruct (iterator_range 4 0%nat m s eq_refl) as (Hbegin & Hend & _ & Hback & _).
  split; [exact Hbegin |]. split; [exact Hend |].
  apply Hback; [size_type_range | cbn; lia].
Defined.

(** Witness for X24: a default-constructed container. *)
Lemma reachable_unbacked_is_empty_witness :
  let m := {| log := []; objects := (∅ : gmap Z Z); vars := {[ 0%nat := unbacked ]} |} in
  to_bool 0%nat m = Ret false m /\ empty 0%nat m = Ret true m.
Proof.
  intros m.
  assert (Hreach : reachable 4 true Z int_construct Posix granting_kernel m).
  { apply (reachable_return _ _ _ _ _ _ (op_default 0%nat) initial m);
      [apply reachable_initial | reflexivity | reflexivity]. }
  destruct (reachable_unbacked_is_empty 4 true Z int_construct Posix granting_kernel
              m 0%nat unbacked Hreach eq_refl) as [Hbool Hempty].
  split; [exact Hbool | exact (Hempty Hbool)].
Defined.
